(** * ExtremeScaleExecutor and the task-distribution core

    [Exex] is a shallow embedding of
    [parsl/executors/extreme_scale/exex.py]: the module-level statements
    (the guarded [import mpi4py], the module logger) and the class
    [ExtremeScaleExecutor] with its constructor.

    [Core] models the task queue client, the result router and the
    interchange.  They live in [parsl/executors/high_throughput], outside
    [exex.py], and are modelled from the specification.  [CoreInv] holds
    the invariants of that model.

    [ExexProps] and [CoreProps] hold the theorems. *)

From stdpp Require Import gmap strings list fin_maps.
From Stdlib Require Import ZArith.

Local Open Scope string_scope.

Module Exex.

(** ** Python values

    The constructor is dynamically typed: any value can be bound to any
    parameter.  [PyObj] stands for an instance of a class that defines
    neither [__bool__] nor [__len__] (a provider, for instance). *)
#[warnings="-register-all"]
Inductive PyVal : Type :=
| PyNone
| PyBool (b : bool)
| PyInt (z : Z)
| PyStr (s : string)
| PyTuple (items : list PyVal)
| PyList (items : list PyVal)
| PyObj (class_name : string).

(** Python truth value testing, as used by [if not launch_cmd]. *)
Definition truthy (v : PyVal) : bool :=
  match v with
  | PyNone => false
  | PyBool b => b
  | PyInt z => negb (Z.eqb z 0)
  | PyStr s => negb (String.eqb s "")
  | PyTuple items | PyList items =>
      match items with [] => false | _ :: _ => true end
  | PyObj _ => true
  end.

(** An exception instance: its class and the positional arguments it was
    built with. *)
Record PyExn : Type := MkExn {
  exn_class : string;
  exn_args : list PyVal
}.

(** [OptionalModuleMissing(module_names, reason)], star-imported from
    [parsl.executors.errors]. *)
Definition OptionalModuleMissing (module_names reason : PyVal) : PyExn :=
  MkExn "OptionalModuleMissing" [module_names; reason].

Definition AttributeError (msg : string) : PyExn :=
  MkExn "AttributeError" [PyStr msg].


(** ** Module-level state (lines 4-19) *)

(** What the file uses of an imported [mpi4py] module object: its
    [__version__] attribute, when it has one. *)
Record PyModule : Type := MkModule {
  mod_version : option string
}.

(** A [logging.Logger]: its name and the records passed to it, oldest
    first, as (level, message). *)
Record Logger : Type := MkLogger {
  logger_name : string;
  records : list (string * string)
}.

Definition getLogger (name : string) : Logger := MkLogger name [].

Definition Logger_debug (msg : string) (l : Logger) : Logger :=
  MkLogger (logger_name l) (records l ++ [("DEBUG", msg)]).

(** The module globals the constructor refers to by name. *)
Record Globals : Type := MkGlobals {
  _mpi_enabled : bool;
  mpi4py : option PyModule;
  logger : Logger
}.

Definition with_logger (g : Globals) (lg : Logger) : Globals :=
  MkGlobals (_mpi_enabled g) (mpi4py g) lg.

(** Executing the module body: [try: import mpi4py / except ImportError:
    _mpi_enabled = False / else: _mpi_enabled = True], then
    [logger = logging.getLogger(__name__)].  [import_result] is [None]
    when the import raises [ImportError]; the name [mpi4py] then stays
    unbound. *)
Definition load_module (name__ : string) (import_result : option PyModule)
  : Globals :=
  {| _mpi_enabled := match import_result with
                     | Some _ => true
                     | None => false
                     end;
     mpi4py := import_result;
     logger := getLogger name__ |}.

(** ** Classes (line 22) *)

Inductive ClassName : Type :=
| ExtremeScaleExecutor
| HighThroughputExecutor
| RepresentationMixin
| ExternalClass (name : string).

Global Instance ClassName_eq_dec : EqDecision ClassName.
Proof. solve_decision. Defined.

(** The names bound in the body of [class ExtremeScaleExecutor]: the
    docstring and the constructor, nothing else. *)
Definition ExtremeScaleExecutor_namespace : list string :=
  ["__doc__"; "__init__"].

(** An instance: its class and its attribute dictionary. *)
Record Instance : Type := MkInstance {
  cls : ClassName;
  attrs : gmap string PyVal
}.

(** ** The constructor's parameters (lines 87-99) *)

Record InitArgs : Type := MkInitArgs {
  label : PyVal;
  provider : PyVal;
  launch_cmd : PyVal;
  public_ip : PyVal;
  worker_ports : PyVal;
  worker_port_range : PyVal;
  internal_port_range : PyVal;
  storage_access : PyVal;
  working_dir : PyVal;
  engine_debug : PyVal;
  mock : PyVal;
  managed : PyVal
}.

(** The defaults of the signature; [LocalProvider()] is evaluated once,
    when the [def] is executed. *)
Definition default_args : InitArgs :=
  {| label := PyStr "ExtremeScaleExecutor";
     provider := PyObj "LocalProvider";
     launch_cmd := PyNone;
     public_ip := PyStr "127.0.0.1";
     worker_ports := PyNone;
     worker_port_range := PyTuple [PyInt 54000; PyInt 55000];
     internal_port_range := PyTuple [PyInt 55000; PyInt 56000];
     storage_access := PyNone;
     working_dir := PyNone;
     engine_debug := PyBool false;
     mock := PyBool false;
     managed := PyBool true |}.

(** The parameter names, in signature order, and the value bound to each. *)
Definition param_names : list string :=
  ["label"; "provider"; "launch_cmd"; "public_ip"; "worker_ports";
   "worker_port_range"; "internal_port_range"; "storage_access";
   "working_dir"; "engine_debug"; "mock"; "managed"].

Definition param_value (a : InitArgs) (name : string) : option PyVal :=
  if String.eqb name "label" then Some (label a)
  else if String.eqb name "provider" then Some (provider a)
  else if String.eqb name "launch_cmd" then Some (launch_cmd a)
  else if String.eqb name "public_ip" then Some (public_ip a)
  else if String.eqb name "worker_ports" then Some (worker_ports a)
  else if String.eqb name "worker_port_range" then Some (worker_port_range a)
  else if String.eqb name "internal_port_range" then Some (internal_port_range a)
  else if String.eqb name "storage_access" then Some (storage_access a)
  else if String.eqb name "working_dir" then Some (working_dir a)
  else if String.eqb name "engine_debug" then Some (engine_debug a)
  else if String.eqb name "mock" then Some (mock a)
  else if String.eqb name "managed" then Some (managed a)
  else None.

(** The keyword arguments of the call [super().__init__(...)]
    (lines 101-112), in the order they are written. *)
Definition super_kwargs (a : InitArgs) : list (string * PyVal) :=
  [("label", label a);
   ("provider", provider a);
   ("launch_cmd", launch_cmd a);
   ("public_ip", public_ip a);
   ("worker_ports", worker_ports a);
   ("worker_port_range", worker_port_range a);
   ("internal_port_range", internal_port_range a);
   ("storage_access", storage_access a);
   ("working_dir", working_dir a);
   ("engine_debug", engine_debug a);
   ("mock", mock a);
   ("managed", managed a)].

(** Keyword lookup in a call's keyword list. *)
Fixpoint kwarg (name : string) (kw : list (string * PyVal)) : option PyVal :=
  match kw with
  | [] => None
  | (k, v) :: rest => if String.eqb k name then Some v else kwarg name rest
  end.

Definition default_launch_cmd : string :=
  "mpiexec -np {tasks_per_node} mpi_worker_pool.py {debug} --task_url={task_url} --result_url={result_url}".

(** ** A state and exception monad

    The constructor mutates the module logger and [self]; any statement
    may raise. *)
Record St : Type := MkSt {
  globals : Globals;
  self : Instance
}.

Definition M (A : Type) : Type := St -> St * (PyExn + A).

Definition ret {A} (x : A) : M A := fun st => (st, inr x).
Definition raise {A} (e : PyExn) : M A := fun st => (st, inl e).
Definition bind {A B} (m : M A) (k : A -> M B) : M B :=
  fun st =>
    match m st with
    | (st', inl e) => (st', inl e)
    | (st', inr x) => k x st'
    end.

Notation "x <- m ;; k" := (bind m (fun x => k))
  (at level 100, m at next level, right associativity).
Notation "m ;;; k" := (bind m (fun _ => k))
  (at level 100, right associativity).

Definition get_global {A} (f : Globals -> A) : M A :=
  fun st => (st, inr (f (globals st))).

(** [logger.debug(msg)] on the module-level logger. *)
Definition logger_debug (msg : string) : M unit :=
  fun st =>
    let g := globals st in
    (MkSt (with_logger g (Logger_debug msg (logger g))) (self st), inr tt).

(** [self.<name> = v]. *)
Definition setattr_self (name : string) (v : PyVal) : M unit :=
  fun st =>
    (MkSt (globals st)
          (MkInstance (cls (self st)) (<[name := v]> (attrs (self st)))),
     inr tt).

(** [mpi4py.__version__]: the global name must be bound and the module
    must have the attribute. *)
Definition mpi4py_version : M string :=
  m <- get_global mpi4py ;;
  match m with
  | None => raise (MkExn "NameError" [PyStr "name 'mpi4py' is not defined"])
  | Some md =>
      match mod_version md with
      | Some v => ret v
      | None => raise (AttributeError "module 'mpi4py' has no attribute '__version__'")
      end
  end.

Section Constructor.

(** The initializer reached by [super().__init__]: that of
    [HighThroughputExecutor], defined in
    [parsl/executors/high_throughput/htex.py].  It receives the keyword
    arguments and the attributes of [self], and either raises or leaves
    new attributes. *)
Variable super_init :
  list (string * PyVal) -> gmap string PyVal -> PyExn + gmap string PyVal.

Definition call_super_init (kw : list (string * PyVal)) : M unit :=
  fun st =>
    match super_init kw (attrs (self st)) with
    | inl e => (st, inl e)
    | inr attrs' =>
        (MkSt (globals st) (MkInstance (cls (self st)) attrs'), inr tt)
    end.

(** [ExtremeScaleExecutor.__init__] (lines 87-123). *)
Definition ExtremeScaleExecutor__init__ (a : InitArgs) : M unit :=
  call_super_init (super_kwargs a) ;;;
  enabled <- get_global _mpi_enabled ;;
  (if negb enabled
   then raise (OptionalModuleMissing
                 (PyStr "mpi4py")
                 (PyStr "Cannot initialize ExtremeScaleExecutor without mpi4py"))
   else
     v <- mpi4py_version ;;
     logger_debug ("MPI version :" ++ v)) ;;;
  logger_debug "Initializing ExtremeScaleExecutor" ;;;
  (if negb (truthy (launch_cmd a))
   then setattr_self "launch_cmd" (PyStr default_launch_cmd)
   else ret tt).

(** The call [ExtremeScaleExecutor(...)]: a fresh instance of the class
    is allocated, initialized, and returned unless the initializer
    raises. *)
Definition construct (g : Globals) (a : InitArgs)
  : Globals * (PyExn + Instance) :=
  match ExtremeScaleExecutor__init__ a
          (MkSt g (MkInstance ExtremeScaleExecutor ∅)) with
  | (st, inl e) => (globals st, inl e)
  | (st, inr _) => (globals st, inr (self st))
  end.

End Constructor.

(** ** Subclass test *)

Section Classes.

(** The base lists of the classes defined outside this file. *)
Variable external_bases : ClassName -> list ClassName.

Definition class_bases (c : ClassName) : list ClassName :=
  match c with
  | ExtremeScaleExecutor => [HighThroughputExecutor; RepresentationMixin]
  | _ => external_bases c
  end.

(** [issubclass(c, d)], following base lists to depth [fuel]. *)
Fixpoint issubclass (fuel : nat) (c d : ClassName) : bool :=
  if decide (c = d) then true
  else match fuel with
       | 0 => false
       | S fuel' => existsb (fun b => issubclass fuel' b d) (class_bases c)
       end.

Definition isinstance (fuel : nat) (o : Instance) (d : ClassName) : bool :=
  issubclass fuel (cls o) d.

End Classes.

(** A stand-in initializer used to run the constructor on concrete
    inputs: it stores every keyword argument as an attribute. *)
Definition store_kwargs_init
  (kw : list (string * PyVal)) (at0 : gmap string PyVal)
  : PyExn + gmap string PyVal :=
  inr (foldl (fun m kv => <[kv.1 := kv.2]> m) at0 kw).

Definition this_module : string := "parsl.executors.extreme_scale.exex".

(** The exception the constructor raises when [mpi4py] is missing. *)
Definition missing_mpi4py : PyExn :=
  OptionalModuleMissing
    (PyStr "mpi4py")
    (PyStr "Cannot initialize ExtremeScaleExecutor without mpi4py").

(** Concrete inputs for running the constructor: an importable [mpi4py]
    and the instance [__new__] hands to [__init__]. *)
Definition mpi4py_3 : PyModule := MkModule (Some "3.0.0").

Definition fresh_self : Instance := MkInstance ExtremeScaleExecutor ∅.

(** ** Calling the class (lines 87-99)

    The signature has twelve parameters after [self], each with a
    default, and neither [*args] nor [**kwargs]. *)

(** Positional arguments are bound to the first parameters, in signature
    order; [None] when there are more arguments than parameters. *)
Fixpoint bind_positional (names : list string) (pos : list PyVal)
  : option (list (string * PyVal)) :=
  match pos, names with
  | [], _ => Some []
  | _ :: _, [] => None
  | v :: pos', n :: names' =>
      match bind_positional names' pos' with
      | Some rest => Some ((n, v) :: rest)
      | None => None
      end
  end.

(** A keyword is accepted when it names a parameter that no positional
    argument has bound already. *)
Definition keyword_ok (bound : list (string * PyVal)) (k : string) : bool :=
  existsb (String.eqb k) param_names
  && negb (existsb (String.eqb k) (map fst bound)).

(** The value a parameter gets: its positional argument, else its
    keyword argument, else the default of the signature. *)
Definition bound_value (bound : list (string * PyVal))
  (kw : gmap string PyVal) (name : string) : option PyVal :=
  match kwarg name bound with
  | Some v => Some v
  | None =>
      match kw !! name with
      | Some v => Some v
      | None => param_value default_args name
      end
  end.

(** Argument binding for a call of the class with positional arguments
    [pos] and keyword arguments [kw]; [None] when the interpreter raises [TypeError] instead of running
    the body: too many positional arguments, an unexpected keyword, or a
    keyword for a parameter that is bound positionally. *)
Definition bind_call (pos : list PyVal) (kw : gmap string PyVal)
  : option InitArgs :=
  match bind_positional param_names pos with
  | None => None
  | Some bound =>
      if forallb (keyword_ok bound) (map fst (map_to_list kw))
      then
        let arg name := default PyNone (bound_value bound kw name) in
        Some {| label := arg "label";
                provider := arg "provider";
                launch_cmd := arg "launch_cmd";
                public_ip := arg "public_ip";
                worker_ports := arg "worker_ports";
                worker_port_range := arg "worker_port_range";
                internal_port_range := arg "internal_port_range";
                storage_access := arg "storage_access";
                working_dir := arg "working_dir";
                engine_debug := arg "engine_debug";
                mock := arg "mock";
                managed := arg "managed" |}
      else None
  end.

(** The arguments of a call fit the signature: at most twelve positional
    arguments, and every keyword names a parameter beyond those bound
    positionally. *)
Definition fits (pos : list PyVal) (kw : gmap string PyVal) : Prop :=
  (length pos <= 12)%nat /\
  forall k v, kw !! k = Some v ->
    exists i, param_names !! i = Some k /\ (length pos <= i)%nat.

(** What the caller passed for the parameter [n] at position [i]: the
    positional argument, else the keyword argument, else the default. *)
Definition passed (pos : list PyVal) (kw : gmap string PyVal)
  (i : nat) (n : string) : PyVal :=
  match pos !! i with
  | Some v => v
  | None =>
      match kw !! n with
      | Some v => v
      | None => default PyNone (param_value default_args n)
      end
  end.

(** What leaves a call uncaught: the interpreter's [TypeError] for
    arguments that do not fit the signature, or an exception raised
    while the constructor runs. *)
Inductive Uncaught : Type :=
| ArgumentTypeError
| Raised (e : PyExn).

(** A call of the class with positional arguments [pos] and keyword
    arguments [kw]. *)
Definition call
  (super_init : list (string * PyVal) -> gmap string PyVal
                -> PyExn + gmap string PyVal)
  (g : Globals) (pos : list PyVal) (kw : gmap string PyVal)
  : Globals * (Uncaught + Instance) :=
  match bind_call pos kw with
  | None => (g, inl ArgumentTypeError)
  | Some a =>
      match construct super_init g a with
      | (g', inl e) => (g', inl (Raised e))
      | (g', inr o) => (g', inr o)
      end
  end.

(** ** Running the module (lines 4-19 and 126-129) *)



(** ** Exceptions and log records of a construction *)

(** [NameError] for the global [mpi4py], were it unbound. *)
Definition name_error : PyExn :=
  MkExn "NameError" [PyStr "name 'mpi4py' is not defined"].

(** [AttributeError] for [mpi4py.__version__]. *)
Definition version_error : PyExn :=
  AttributeError "module 'mpi4py' has no attribute '__version__'".

(** The two records a construction logs. *)
Definition init_records (v : string) : list (string * string) :=
  [("DEBUG", "MPI version :" ++ v);
   ("DEBUG", "Initializing ExtremeScaleExecutor")].

End Exex.

(** * The task-distribution core

    The classes this part describes ([HighThroughputExecutor], its
    interchange and its queue management) are defined outside
    [exex.py]; every definition of this module follows the
    specification's description of them. *)

Module Core.

Local Open Scope nat_scope.

(** Modelled from the spec: the configuration surface the core consumes
    (section 6): batch size, backpressure queue depth, heartbeat timeout
    and the optional per-task retry limit.  A batch holds at least one
    task. *)
Record Config : Type := MkConfig {
  batch_size : positive;
  queue_depth : nat;
  heartbeat_timeout : N;
  retry_limit : option nat
}.

(** Modelled from the spec: the four states of a Task Envelope
    (section 3). *)
Inductive TaskState : Type := Queued | Dispatched | Completed | Failed.

Global Instance TaskState_eq_dec : EqDecision TaskState.
Proof. solve_decision. Defined.

(** Modelled from the spec: the Task Envelope of section 3, with the
    count of watchdog retries that the retry limit of section 4.4 needs. *)
Record Envelope : Type := MkEnvelope {
  task_id : N;
  payload : list Byte.byte;
  state : TaskState;
  assigned_worker : option N;
  retries : nat
}.

(** Modelled from the spec: the Worker Registration of section 3. *)
Record Worker : Type := MkWorker {
  worker_id : N;
  capacity : nat;
  last_heartbeat_time : N;
  in_flight_tasks : gset N
}.

(** Modelled from the spec: the Batch of section 3. *)
Record Batch : Type := MkBatch {
  batch_id : N;
  batch_tasks : list N;
  target_worker : N
}.

(** Modelled from the spec: the error taxonomy of section 7. *)
Inductive ErrorKind : Type :=
| QueueFull
| ConnectionLost
| WorkerLost
| TaskException (e : list Byte.byte)
| Cancelled.

(** Modelled from the spec: what a Future is resolved with: a successful
    value or one of the errors. *)
Inductive Resolution : Type :=
| Value (v : list Byte.byte)
| Error (k : ErrorKind).

(** Modelled from the spec: the Future of section 3: back-reference,
    result slot, resolution flag. *)
Record Future : Type := MkFuture {
  fut_task_id : N;
  slot : option Resolution;
  resolved : bool
}.

(** Modelled from the spec: the message framing of section 6: a task id
    and a body of type task, result or exception. *)
Inductive MsgBody : Type :=
| TaskBody (p : list Byte.byte)
| ResultBody (v : list Byte.byte)
| ExceptionBody (k : ErrorKind).

(** Modelled from the spec: a framed message (section 6). *)
Record Message : Type := MkMessage {
  msg_task_id : N;
  body : MsgBody
}.

(** ** The client side: Task Queue Client and Result Router *)

(** Modelled from the spec: the state of the submitting process
    (sections 4.1, 4.2): the id generator, the mapping table from task
    id to Future, the Futures handed to callers (a Future's handle is its
    position), the bounded outbound channel, and the diagnostic log of
    dropped items. *)
Record Client : Type := MkClient {
  next_task_id : N;
  table : gmap N nat;
  futures : list Future;
  outbound : list Envelope;
  dropped : list Message
}.

(** Modelled from the spec: what [submit] gives its caller: the Future,
    or the [QueueFull] condition. *)
Inductive SubmitResult : Type :=
| Accepted (handle : nat)
| Rejected (k : ErrorKind).

(** Modelled from the spec: [submit(payload) -> Future] of section 4.1.
    At the configured queue depth the submission fails with [QueueFull]
    and changes nothing; otherwise a fresh id is generated, an envelope
    in state [Queued] is put on the outbound channel, the mapping is
    registered and the Future returned. *)
Definition submit (cfg : Config) (p : list Byte.byte) (c : Client)
  : Client * SubmitResult :=
  if Nat.leb (queue_depth cfg) (length (outbound c))
  then (c, Rejected QueueFull)
  else
    let t := next_task_id c in
    let h := length (futures c) in
    (MkClient (N.succ t)
              (<[t := h]> (table c))
              (futures c ++ [MkFuture t None false])
              (outbound c ++ [MkEnvelope t p Queued None 0])
              (dropped c),
     Accepted h).

(** Modelled from the spec: resolving a Future fills its slot and sets
    its flag. *)
Definition resolve (r : Resolution) (f : Future) : Future :=
  MkFuture (fut_task_id f) (Some r) true.

(** Modelled from the spec: what an inbound item resolves a Future with:
    the successful value or the propagated exception. *)
Definition resolution_of (b : MsgBody) : option Resolution :=
  match b with
  | TaskBody _ => None
  | ResultBody v => Some (Value v)
  | ExceptionBody k => Some (Error k)
  end.

(** Modelled from the spec: one turn of the Result Router (section 4.2):
    look the task id up in the mapping table; if found, resolve the
    Future and remove the entry; if not, log the item and drop it. *)
Definition route (m : Message) (c : Client) : Client :=
  match table c !! msg_task_id m, resolution_of (body m) with
  | Some h, Some r =>
      MkClient (next_task_id c)
               (delete (msg_task_id m) (table c))
               (alter (resolve r) h (futures c))
               (outbound c)
               (dropped c)
  | _, _ =>
      MkClient (next_task_id c) (table c) (futures c) (outbound c)
               (dropped c ++ [m])
  end.

(** Modelled from the spec: the client half of [Future.cancel()]
    (section 5): a Future that has not resolved is resolved with
    [Cancelled], its mapping entry goes, and an envelope still waiting
    on the outbound channel is withdrawn. *)
Definition cancel_future (t : N) (c : Client) : Client * bool :=
  match table c !! t with
  | Some h =>
      (MkClient (next_task_id c)
                (delete t (table c))
                (alter (resolve (Error Cancelled)) h (futures c))
                (filter (fun e => task_id e ≠ t) (outbound c))
                (dropped c),
       true)
  | None => (c, false)
  end.

(** Modelled from the spec: loss of the inbound channel (section 4.2):
    every Future that is still unresolved is resolved with
    [ConnectionLost]. *)
Definition teardown (c : Client) : Client :=
  MkClient (next_task_id c)
           ∅
           ((fun f => if resolved f then f
                      else resolve (Error ConnectionLost) f) <$> futures c)
           (outbound c)
           (dropped c).

(** ** The interchange *)

(** Modelled from the spec: the state of the Interchange (sections 4.3,
    4.4): the envelopes it keeps books on, the FIFO pending queue, the
    worker registrations in registration order, the batches sent to the
    worker transport, and the egress channel towards the client. *)
Record Interchange : Type := MkInterchange {
  envelopes : gmap N Envelope;
  pending : list N;
  workers : list Worker;
  batches : list Batch;
  next_batch_id : N;
  egress : list Message
}.

(** Modelled from the spec: a state change of one envelope, with the
    worker it is assigned to. *)
Definition set_state (st : TaskState) (w : option N) (e : Envelope)
  : Envelope :=
  MkEnvelope (task_id e) (payload e) st w (retries e).

(** Modelled from the spec: receipt of a task (section 4.3): it is
    booked and appended to the pending queue. *)
Definition receive_task (e : Envelope) (i : Interchange) : Interchange :=
  MkInterchange (<[task_id e := e]> (envelopes i))
                (pending i ++ [task_id e])
                (workers i) (batches i) (next_batch_id i) (egress i).

(** Modelled from the spec: a worker's spare capacity. *)
Definition spare_capacity (w : Worker) : nat :=
  capacity w - size (in_flight_tasks w).

(** Modelled from the spec: the greedy least-loaded choice
    (section 4.3): the worker with the most spare capacity, the
    earliest-registered one among equals.  The result is its position in
    the registration list, and the registration. *)
Fixpoint most_spare (ws : list Worker) : option (nat * Worker) :=
  match ws with
  | [] => None
  | w :: rest =>
      match most_spare rest with
      | Some (j, w') =>
          if Nat.ltb (spare_capacity w) (spare_capacity w')
          then Some (S j, w')
          else Some (0, w)
      | None => Some (0, w)
      end
  end.

(** Modelled from the spec: marking the tasks of a batch [Dispatched]. *)
Definition mark_dispatched (w : N) (ts : list N) (envs : gmap N Envelope)
  : gmap N Envelope :=
  foldr (fun t m => alter (set_state Dispatched (Some w)) t m) envs ts.

(** Modelled from the spec: adding the tasks of a batch to a worker's
    in-flight set. *)
Definition assign (ts : list N) (w : Worker) : Worker :=
  MkWorker (worker_id w) (capacity w) (last_heartbeat_time w)
           (in_flight_tasks w ∪ list_to_set ts).

(** Modelled from the spec: one turn of the dispatch loop (section 4.3).
    [None] when the loop condition fails: the pending queue is empty or
    no worker has spare capacity. *)
Definition dispatch_step (cfg : Config) (i : Interchange)
  : option Interchange :=
  match pending i with
  | [] => None
  | _ :: _ =>
      match most_spare (workers i) with
      | None => None
      | Some (j, w) =>
          if Nat.eqb (spare_capacity w) 0 then None
          else
            let n := Nat.min (Pos.to_nat (batch_size cfg)) (spare_capacity w) in
            let ts := take n (pending i) in
            Some (MkInterchange
                    (mark_dispatched (worker_id w) ts (envelopes i))
                    (drop n (pending i))
                    (alter (assign ts) j (workers i))
                    (batches i ++ [MkBatch (next_batch_id i) ts (worker_id w)])
                    (N.succ (next_batch_id i))
                    (egress i))
      end
  end.

(** Modelled from the spec: at most [fuel] turns of the dispatch loop. *)
Fixpoint dispatch_loop (fuel : nat) (cfg : Config) (i : Interchange)
  : Interchange :=
  match fuel with
  | 0 => i
  | S fuel' =>
      match dispatch_step cfg i with
      | None => i
      | Some i' => dispatch_loop fuel' cfg i'
      end
  end.

(** Modelled from the spec: the dispatch loop.  Every turn takes at
    least one task off the pending queue, so its length bounds the
    number of turns. *)
Definition dispatch (cfg : Config) (i : Interchange) : Interchange :=
  dispatch_loop (length (pending i)) cfg i.

(** Modelled from the spec: removing a task from the in-flight set of
    the worker that owns it. *)
Definition release (owner : option N) (t : N) (w : Worker) : Worker :=
  if decide (owner = Some (worker_id w))
  then MkWorker (worker_id w) (capacity w) (last_heartbeat_time w)
                (in_flight_tasks w ∖ {[t]})
  else w.

(** Modelled from the spec: the state a result or an exception puts the
    envelope in. *)
Definition terminal_state (b : MsgBody) : option TaskState :=
  match b with
  | TaskBody _ => None
  | ResultBody _ => Some Completed
  | ExceptionBody _ => Some Failed
  end.

(** Modelled from the spec: receipt of a result or exception
    (section 4.4).  The task must have an owning worker, that is, be
    [Dispatched]; it leaves that worker's in-flight set, the envelope
    becomes [Completed] or [Failed], the message goes unchanged to the
    client, and dispatch is run again.  Anything else (an unknown id, a
    task that is not dispatched) is dropped. *)
Definition handle_result (cfg : Config) (m : Message) (i : Interchange)
  : Interchange :=
  match envelopes i !! msg_task_id m, terminal_state (body m) with
  | Some e, Some st =>
      match state e with
      | Dispatched =>
          dispatch cfg
            (MkInterchange
               (<[msg_task_id m := set_state st None e]> (envelopes i))
               (pending i)
               (release (assigned_worker e) (msg_task_id m) <$> workers i)
               (batches i) (next_batch_id i)
               (egress i ++ [m]))
      | _ => i
      end
  | _, _ => i
  end.

(** Modelled from the spec: whether one more retry exceeds the
    configured limit. *)
Definition retries_exhausted (cfg : Config) (n : nat) : bool :=
  match retry_limit cfg with
  | Some limit => Nat.ltb limit n
  | None => false
  end.

(** Modelled from the spec: what the watchdog does with one task of a
    dead worker (section 4.4): it is reset to [Queued] and pushed to the
    front of the pending queue, unless a retry limit is configured and
    exceeded, in which case it is [Failed] with [WorkerLost]. *)
Definition requeue_lost (cfg : Config) (t : N) (i : Interchange)
  : Interchange :=
  match envelopes i !! t with
  | None => i
  | Some e =>
      let n := S (retries e) in
      if retries_exhausted cfg n
      then MkInterchange
             (<[t := MkEnvelope (task_id e) (payload e) Failed None n]>
                (envelopes i))
             (pending i) (workers i) (batches i) (next_batch_id i)
             (egress i ++ [MkMessage t (ExceptionBody WorkerLost)])
      else MkInterchange
             (<[t := MkEnvelope (task_id e) (payload e) Queued None n]>
                (envelopes i))
             (t :: pending i) (workers i) (batches i) (next_batch_id i)
             (egress i)
  end.

(** Modelled from the spec: a registration whose last heartbeat is older
    than the timeout. *)
Definition timed_out (cfg : Config) (now : N) (w : Worker) : bool :=
  N.ltb (heartbeat_timeout cfg) (now - last_heartbeat_time w)%N.

(** Modelled from the spec: one watchdog tick (section 4.4): the
    registrations that timed out are removed, every task they held is
    requeued, and dispatch is run again. *)
Definition watchdog_tick (cfg : Config) (now : N) (i : Interchange)
  : Interchange :=
  let dead := filter (fun w => timed_out cfg now w = true) (workers i) in
  let alive := filter (fun w => timed_out cfg now w ≠ true) (workers i) in
  let lost := dead ≫= (fun w => elements (in_flight_tasks w)) in
  dispatch cfg
    (foldr (requeue_lost cfg)
       (MkInterchange (envelopes i) (pending i) alive
                      (batches i) (next_batch_id i) (egress i))
       lost).

(** Modelled from the spec: registration of a worker (section 4.4): a
    new registration, with nothing in flight, joins at the end of the
    list.  A worker id that is registered already is left alone. *)
Definition register (w : N) (cap : nat) (now : N) (i : Interchange)
  : Interchange :=
  if decide (w ∈ worker_id <$> workers i) then i
  else MkInterchange (envelopes i) (pending i)
                     (workers i ++ [MkWorker w cap now ∅])
                     (batches i) (next_batch_id i) (egress i).

(** Modelled from the spec: a heartbeat from a worker. *)
Definition heartbeat (w : N) (now : N) (i : Interchange) : Interchange :=
  MkInterchange (envelopes i) (pending i)
    ((fun r => if decide (worker_id r = w)
               then MkWorker (worker_id r) (capacity r) now (in_flight_tasks r)
               else r) <$> workers i)
    (batches i) (next_batch_id i) (egress i).

(** Modelled from the spec: a worker reports termination (section 3):
    its registration is removed. *)
Definition unregister (w : N) (i : Interchange) : Interchange :=
  MkInterchange (envelopes i) (pending i)
    (filter (fun r => worker_id r ≠ w) (workers i))
    (batches i) (next_batch_id i) (egress i).

(** Modelled from the spec: explicit requeue on transport failure
    (section 4.5): a dispatched task leaves its worker and goes back to
    the front of the pending queue. *)
Definition requeue_task (t : N) (i : Interchange) : Interchange :=
  match envelopes i !! t with
  | Some e =>
      match state e with
      | Dispatched =>
          MkInterchange
            (<[t := set_state Queued None e]> (envelopes i))
            (t :: pending i)
            (release (assigned_worker e) t <$> workers i)
            (batches i) (next_batch_id i) (egress i)
      | _ => i
      end
  | None => i
  end.

(** Modelled from the spec: the interchange half of a cancellation
    (section 5): a task that is still [Queued] is removed from the
    pending queue, and its bookkeeping with it. *)
Definition cancel_queued (t : N) (i : Interchange) : Interchange :=
  match envelopes i !! t with
  | Some e =>
      match state e with
      | Queued =>
          MkInterchange (delete t (envelopes i))
                        (filter (fun t' => t' ≠ t) (pending i))
                        (workers i) (batches i) (next_batch_id i) (egress i)
      | _ => i
      end
  | None => i
  end.

(** Modelled from the spec: the end of the grace window (section 4.5):
    the bookkeeping of an envelope in a terminal state is discarded. *)
Definition forget (t : N) (i : Interchange) : Interchange :=
  match envelopes i !! t with
  | Some e =>
      match state e with
      | Completed | Failed =>
          MkInterchange (delete t (envelopes i)) (pending i)
                        (workers i) (batches i) (next_batch_id i) (egress i)
      | _ => i
      end
  | None => i
  end.

(** ** The system *)

(** Modelled from the spec: the submitting process and the interchange,
    joined by the outbound channel (held by the client) and the inbound
    channel (the interchange's egress). *)
Record Sys : Type := MkSys {
  client : Client;
  ichg : Interchange
}.

(** Modelled from the spec: the events of sections 4 and 5.  Each is
    atomic: the mapping table, the pending queue and the registration
    table are mutated under exclusive access. *)
Inductive Label : Type :=
| LSubmit (p : list Byte.byte)
| LIngest
| LDispatch
| LReply (m : Message)
| LHeartbeat (w : N) (now : N)
| LWatchdog (now : N)
| LRegister (w : N) (cap : nat) (now : N)
| LUnregister (w : N)
| LRequeue (t : N)
| LRoute
| LCancel (t : N)
| LTeardown
| LForget (t : N).

(** Modelled from the spec: the system with its interchange replaced. *)
Definition with_ichg (s : Sys) (i : Interchange) : Sys := MkSys (client s) i.

(** Modelled from the spec: the system with its client replaced. *)
Definition with_client (s : Sys) (c : Client) : Sys := MkSys c (ichg s).

(** Modelled from the spec: the effect of one event on the system. *)
Definition exec (cfg : Config) (l : Label) (s : Sys) : Sys :=
  match l with
  | LSubmit p => with_client s (submit cfg p (client s)).1
  | LIngest =>
      match outbound (client s) with
      | [] => s
      | e :: rest =>
          MkSys (MkClient (next_task_id (client s)) (table (client s))
                          (futures (client s)) rest (dropped (client s)))
                (receive_task e (ichg s))
      end
  | LDispatch => with_ichg s (dispatch cfg (ichg s))
  | LReply m => with_ichg s (handle_result cfg m (ichg s))
  | LHeartbeat w now => with_ichg s (heartbeat w now (ichg s))
  | LWatchdog now => with_ichg s (watchdog_tick cfg now (ichg s))
  | LRegister w cap now => with_ichg s (register w cap now (ichg s))
  | LUnregister w => with_ichg s (unregister w (ichg s))
  | LRequeue t => with_ichg s (requeue_task t (ichg s))
  | LRoute =>
      match egress (ichg s) with
      | [] => s
      | m :: rest =>
          MkSys (route m (client s))
                (MkInterchange (envelopes (ichg s)) (pending (ichg s))
                               (workers (ichg s)) (batches (ichg s))
                               (next_batch_id (ichg s)) rest)
      end
  | LCancel t =>
      match cancel_future t (client s) with
      | (c, true) => MkSys c (cancel_queued t (ichg s))
      | (_, false) => s
      end
  | LTeardown => with_client s (teardown (client s))
  | LForget t => with_ichg s (forget t (ichg s))
  end.

(** Modelled from the spec: the system at startup: nothing submitted, no
    worker registered. *)
Definition init : Sys :=
  MkSys (MkClient 0%N ∅ [] [] [])
        (MkInterchange ∅ [] [] [] 0%N []).

(** Modelled from the spec: a sequence of events. *)
Definition run (cfg : Config) (ls : list Label) (s : Sys) : Sys :=
  foldl (fun s l => exec cfg l s) s ls.

(** Modelled from the spec: the states the system can be in. *)
Inductive reachable (cfg : Config) : Sys -> Prop :=
| reach_init : reachable cfg init
| reach_step s l : reachable cfg s -> reachable cfg (exec cfg l s).

(** Modelled from the spec: the state of a task's envelope in the
    interchange's books, if it has one. *)
Definition state_of (s : Sys) (t : N) : option TaskState :=
  state <$> envelopes (ichg s) !! t.

(** Modelled from the spec: the edges of the envelope state machine
    (section 4.5).  [requeue] tells whether the event at hand is a
    watchdog tick or an explicit requeue. *)
Definition edge (requeue : bool) (a b : TaskState) : bool :=
  match a, b with
  | Queued, Dispatched => true
  | Dispatched, Completed => true
  | Dispatched, Failed => true
  | Dispatched, Queued => requeue
  | _, _ => false
  end.

(** Modelled from the spec: the events that may send a task back:
    watchdog-detected worker loss and explicit requeue. *)
Definition requeues (l : Label) : bool :=
  match l with
  | LWatchdog _ | LRequeue _ => true
  | _ => false
  end.

(** Modelled from the spec: [Completed] and [Failed] are terminal. *)
Definition is_terminal (st : TaskState) : bool :=
  match st with
  | Completed | Failed => true
  | _ => false
  end.

End Core.

(** * Invariants of the core

    The predicates the proofs about [Core] are stated with, and one
    concrete run. *)

Module CoreInv.
Import Core.
Local Open Scope nat_scope.

(** Handles and task ids advance together; a mapping entry points at the
    unresolved Future of its task. *)
Record client_ok (c : Client) : Prop := {
  ok_next : next_task_id c = N.of_nat (length (futures c));
  ok_ids : forall h f, futures c !! h = Some f -> fut_task_id f = N.of_nat h;
  ok_table : forall t h, table c !! t = Some h ->
               t = N.of_nat h /\
               exists f, futures c !! h = Some f /\ resolved f = false;
  ok_tracked : forall h f, futures c !! h = Some f -> resolved f = false ->
                 table c !! N.of_nat h = Some h
}.

(** The invariant of a Worker Registration: [|in_flight_tasks| <= capacity]. *)
Definition within_capacity (w : Worker) : Prop :=
  size (in_flight_tasks w) ≤ capacity w.

(** Every registered worker is within its capacity. *)
Definition cap_ok (i : Interchange) : Prop :=
  Forall within_capacity (workers i).

(** The pending queue holds each queued task at most once; a task in a
    worker's in-flight set is dispatched to that worker; worker ids are
    registered once. *)
Record ichg_ok (i : Interchange) : Prop := {
  ok_pending_nodup : NoDup (pending i);
  ok_pending : forall t, t ∈ pending i ->
    exists e, envelopes i !! t = Some e /\ state e = Queued;
  ok_in_flight : forall w t, w ∈ workers i -> t ∈ in_flight_tasks w ->
    exists e, envelopes i !! t = Some e /\ state e = Dispatched /\
              assigned_worker e = Some (worker_id w);
  ok_worker_ids : NoDup (worker_id <$> workers i)
}.

(** [moves R m m']: every envelope of [m'] was in [m] already, and its
    state changed along [R]. *)
Definition moves (R : TaskState -> TaskState -> bool)
  (m m' : gmap N Envelope) : Prop :=
  forall t e', m' !! t = Some e' ->
    exists e, m !! t = Some e /\ R (state e) (state e') = true.

(** The reflexive closure of a set of edges. *)
Definition same_or (E : TaskState -> TaskState -> bool) (a b : TaskState)
  : bool :=
  bool_decide (a = b) || E a b.

(** The edges an operation may take: none, those of dispatch, those of
    the watchdog, those of a result. *)
Definition e_none (a b : TaskState) : bool := false.

Definition e_dispatch (a b : TaskState) : bool :=
  match a, b with Queued, Dispatched => true | _, _ => false end.

Definition e_lost (a b : TaskState) : bool :=
  match a, b with
  | Dispatched, Queued | Dispatched, Failed => true
  | _, _ => false
  end.

Definition e_result (a b : TaskState) : bool :=
  match a, b with
  | Dispatched, Completed | Dispatched, Failed => true
  | _, _ => false
  end.

(** The system invariant: both components are consistent; the envelopes
    on the outbound channel are queued, pairwise distinct and not booked
    yet; every id in use was generated by the client. *)
Record sys_ok (s : Sys) : Prop := {
  ok_client : client_ok (client s);
  ok_ichg : ichg_ok (ichg s);
  ok_out_nodup : NoDup (task_id <$> outbound (client s));
  ok_out : forall e, e ∈ outbound (client s) ->
    state e = Queued /\ (task_id e < next_task_id (client s))%N /\
    envelopes (ichg s) !! task_id e = None;
  ok_booked : forall t e, envelopes (ichg s) !! t = Some e ->
    (t < next_task_id (client s))%N
}.

(** [keeps m m']: no envelope of [m] is missing from [m']. *)
Definition keeps (m m' : gmap N Envelope) : Prop :=
  forall t, is_Some (m !! t) -> is_Some (m' !! t).

(** A concrete run: two workers of capacity 2 and 3, three tasks,
    batches of two; the first task completes and its result is routed. *)
Definition cfg0 : Config := MkConfig 2 10 5%N (Some 1).

Definition result0 : Message := MkMessage 0 (ResultBody []).

Definition run0 : list Label :=
  [LRegister 1 2 0; LRegister 2 3 0;
   LSubmit []; LSubmit []; LSubmit [];
   LIngest; LIngest; LIngest; LDispatch;
   LReply result0; LRoute].

Definition s0 : Sys := run cfg0 run0 init.

End CoreInv.

(** * Properties of the constructor *)

Module ExexProps.
Import Exex.

(** Running the constructor, case by case. *)
Lemma init_super_raises sup a st e :
  sup (super_kwargs a) (attrs (self st)) = inl e ->
  ExtremeScaleExecutor__init__ sup a st = (st, inl e).
Proof.
  intros H. unfold ExtremeScaleExecutor__init__, bind, call_super_init.
  now rewrite H.
Qed.

Lemma init_disabled sup a st attrs' :
  sup (super_kwargs a) (attrs (self st)) = inr attrs' ->
  _mpi_enabled (globals st) = false ->
  ExtremeScaleExecutor__init__ sup a st
  = (MkSt (globals st) (MkInstance (cls (self st)) attrs'), inl missing_mpi4py).
Proof.
  intros H He.
  unfold ExtremeScaleExecutor__init__, bind, call_super_init, get_global.
  rewrite H. cbn. now rewrite He.
Qed.

Lemma init_enabled sup a st attrs' :
  sup (super_kwargs a) (attrs (self st)) = inr attrs' ->
  _mpi_enabled (globals st) = true ->
  ExtremeScaleExecutor__init__ sup a st
  = let st1 := MkSt (globals st) (MkInstance (cls (self st)) attrs') in
    match mpi4py (globals st) with
    | None => (st1, inl (MkExn "NameError" [PyStr "name 'mpi4py' is not defined"]))
    | Some md =>
        match mod_version md with
        | None => (st1, inl (AttributeError "module 'mpi4py' has no attribute '__version__'"))
        | Some v =>
            let lg := Logger_debug "Initializing ExtremeScaleExecutor"
                        (Logger_debug ("MPI version :" ++ v) (logger (globals st))) in
            (MkSt (with_logger (globals st) lg)
                  (MkInstance (cls (self st))
                     (if truthy (launch_cmd a) then attrs'
                      else <["launch_cmd" := PyStr default_launch_cmd]> attrs')),
             inr tt)
        end
    end.
Proof.
  intros H He.
  unfold ExtremeScaleExecutor__init__, bind, call_super_init, get_global,
    mpi4py_version, bind, get_global.
  rewrite H. cbn. rewrite He. cbn.
  destruct (mpi4py (globals st)) as [md|]; cbn; [|reflexivity].
  destruct (mod_version md) as [v|]; cbn; [|reflexivity].
  destruct (truthy (launch_cmd a)); reflexivity.
Qed.

(** A run that returns normally went through the enabled branch. *)
Lemma init_returns_inv sup a st st' :
  ExtremeScaleExecutor__init__ sup a st = (st', inr tt) ->
  exists attrs' md v,
    sup (super_kwargs a) (attrs (self st)) = inr attrs' /\
    _mpi_enabled (globals st) = true /\
    mpi4py (globals st) = Some md /\
    mod_version md = Some v /\
    st' = MkSt (with_logger (globals st)
                  (Logger_debug "Initializing ExtremeScaleExecutor"
                     (Logger_debug ("MPI version :" ++ v) (logger (globals st)))))
               (MkInstance (cls (self st))
                  (if truthy (launch_cmd a) then attrs'
                   else <["launch_cmd" := PyStr default_launch_cmd]> attrs')).
Proof.
  intros Hrun.
  destruct (sup (super_kwargs a) (attrs (self st))) as [e|attrs'] eqn:Hs.
  { rewrite (init_super_raises _ _ _ _ Hs) in Hrun. discriminate. }
  destruct (_mpi_enabled (globals st)) eqn:He.
  2:{ rewrite (init_disabled _ _ _ _ Hs He) in Hrun. discriminate. }
  rewrite (init_enabled _ _ _ _ Hs He) in Hrun. cbn zeta in Hrun.
  destruct (mpi4py (globals st)) as [md|] eqn:Hm; [|discriminate].
  destruct (mod_version md) as [v|] eqn:Hv; [|discriminate].
  exists attrs', md, v. repeat split; try reflexivity; try assumption.
  now inversion Hrun.
Qed.

(** ** Concrete runs *)

Example default_construction_returns :
  exists g o, construct store_kwargs_init
                (load_module this_module (Some mpi4py_3)) default_args
              = (g, inr o)
              /\ attrs o !! "launch_cmd" = Some (PyStr default_launch_cmd)
              /\ attrs o !! "label" = Some (PyStr "ExtremeScaleExecutor").
Proof. eexists _, _. split; [reflexivity|]. split; reflexivity. Qed.

Example construction_without_mpi4py_raises :
  (construct store_kwargs_init (load_module this_module None) default_args).2
  = inl missing_mpi4py.
Proof. reflexivity. Qed.

(** ** C1: inheritance *)

Lemma issubclass_refl bases fuel c : issubclass bases fuel c c = true.
Proof. destruct fuel; cbn; now rewrite decide_True. Qed.

Lemma issubclass_base bases fuel c d :
  In d (class_bases bases c) -> issubclass bases (S fuel) c d = true.
Proof.
  intros Hin. cbn. destruct (decide (c = d)); [reflexivity|].
  apply existsb_exists. exists d. split; [assumption|apply issubclass_refl].
Qed.

(** C1, as stated, fails: a constructed object is an instance of the
    full executor class.  With [mpi4py] importable and the default
    arguments, construction returns an object for which
    [isinstance(o, HighThroughputExecutor)] holds, so it is not true
    that construction never yields a subclass instance. *)
Lemma construct_not_composition :
  ~ (forall sup bases fuel g a g' o,
       construct sup g a = (g', inr o) ->
       isinstance bases fuel o HighThroughputExecutor = false).
Proof.
  intros H.
  specialize (H store_kwargs_init (fun _ => []) 1
                (load_module this_module (Some mpi4py_3)) default_args).
  specialize (H _ _ eq_refl). discriminate H.
Qed.

(** C1 (amended): the class is built by inheritance.  Every object a
    construction returns has class [ExtremeScaleExecutor], whose bases
    are [HighThroughputExecutor] and [RepresentationMixin]; it is an
    instance of both, whatever the rest of the class hierarchy is, and
    its attributes were initialized by the inherited initializer, called
    on the fresh instance with the constructor's own arguments as
    keywords. *)
Theorem construct_is_executor_instance
  sup bases fuel (g : Globals) (a : InitArgs) g' o :
  construct sup g a = (g', inr o) ->
  cls o = ExtremeScaleExecutor /\
  class_bases bases (cls o) = [HighThroughputExecutor; RepresentationMixin] /\
  isinstance bases (S fuel) o HighThroughputExecutor = true /\
  isinstance bases (S fuel) o RepresentationMixin = true /\
  exists attrs', sup (super_kwargs a) ∅ = inr attrs'.
Proof.
  unfold construct. intros Hc.
  destruct (ExtremeScaleExecutor__init__ sup a (MkSt g fresh_self))
    as [st' [e|[]]] eqn:Hrun; fold fresh_self in Hc; rewrite Hrun in Hc;
    [discriminate|].
  apply init_returns_inv in Hrun as (attrs' & md & v & Hs & _ & _ & _ & ->).
  inversion Hc; subst; clear Hc.
  split; [reflexivity|]. split; [reflexivity|].
  split; [unfold isinstance; apply issubclass_base; cbn; auto|].
  split; [unfold isinstance; apply issubclass_base; cbn; auto|].
  now exists attrs'.
Qed.

Lemma construct_is_executor_instance_witness :
  let r := construct store_kwargs_init
             (load_module this_module (Some mpi4py_3)) default_args in
  exists o, r.2 = inr o /\
    isinstance (fun _ => []) 1 o HighThroughputExecutor = true.
Proof.
  eexists. split; [reflexivity|].
  eapply (construct_is_executor_instance store_kwargs_init (fun _ => []) 0
            (load_module this_module (Some mpi4py_3)) default_args).
  reflexivity.
Defined.

(** ** C2: the parameters are forwarded unchanged *)

(** C2: the inherited initializer is called with exactly the twelve
    parameters as keywords, each bound to the value the constructor
    received.  If that call raises, the exception propagates and nothing
    else happens; otherwise the class adds nothing to the instance
    except, possibly, its [launch_cmd] attribute: the class itself binds
    only [__init__] (and its docstring), so submission, dispatch and
    result handling are all inherited. *)
Theorem init_forwards_parameters sup (a : InitArgs) (st : St) :
  map fst (super_kwargs a) = param_names /\
  Forall (fun n => is_Some (param_value a n) /\
                   kwarg n (super_kwargs a) = param_value a n) param_names /\
  ExtremeScaleExecutor_namespace = ["__doc__"; "__init__"] /\
  match sup (super_kwargs a) (attrs (self st)) with
  | inl e => ExtremeScaleExecutor__init__ sup a st = (st, inl e)
  | inr attrs' =>
      let st' := (ExtremeScaleExecutor__init__ sup a st).1 in
      cls (self st') = cls (self st) /\
      forall name, name <> "launch_cmd" ->
                   attrs (self st') !! name = attrs' !! name
  end.
Proof.
  split; [reflexivity|]. split.
  { repeat constructor; cbn; eauto. }
  split; [reflexivity|].
  destruct (sup (super_kwargs a) (attrs (self st))) as [e|attrs'] eqn:Hs.
  { now apply init_super_raises. }
  destruct (_mpi_enabled (globals st)) eqn:He.
  - rewrite (init_enabled _ _ _ _ Hs He). cbn zeta.
    destruct (mpi4py (globals st)) as [md|]; [|now split].
    destruct (mod_version md) as [v|]; [|now split].
    cbn. split; [reflexivity|]. intros name Hne.
    destruct (truthy (launch_cmd a)); [reflexivity|].
    now rewrite lookup_insert_ne.
  - rewrite (init_disabled _ _ _ _ Hs He). now split.
Qed.

(** ** C3: module-level state *)

(** C3, as stated, fails: the constructor both writes and reads module
    globals that are not among its parameters.  If its effect on the
    globals were nil and its outcome independent of them, constructing
    with the default arguments would leave the module logger untouched;
    it appends two records instead. *)
Lemma init_touches_module_globals :
  ~ (forall sup a st,
       globals (ExtremeScaleExecutor__init__ sup a st).1 = globals st /\
       forall g, (ExtremeScaleExecutor__init__ sup a (MkSt g (self st))).2
                 = (ExtremeScaleExecutor__init__ sup a st).2).
Proof.
  intros H.
  destruct (H store_kwargs_init default_args
              (MkSt (load_module this_module (Some mpi4py_3)) fresh_self))
    as [Hw _].
  apply (f_equal (fun g => length (records (logger g)))) in Hw.
  vm_compute in Hw. discriminate Hw.
Qed.

(** C3 (amended): the constructor uses module-level state implicitly.
    [logger] is not a parameter; it is the module global created by
    [logging.getLogger(__name__)] when the module is loaded.  Every
    construction that returns has read the globals [_mpi_enabled] and
    [mpi4py] and has appended two debug records to that logger, the
    MPI version and the initialization message, leaving the two other
    globals as they were. *)
Theorem init_uses_module_globals sup (a : InitArgs) (st st' : St) :
  ExtremeScaleExecutor__init__ sup a st = (st', inr tt) ->
  param_value a "logger" = None /\
  (forall name imp, logger (load_module name imp) = getLogger name) /\
  exists md v,
    _mpi_enabled (globals st) = true /\
    mpi4py (globals st) = Some md /\
    mod_version md = Some v /\
    logger (globals st')
    = MkLogger (logger_name (logger (globals st)))
        (records (logger (globals st))
           ++ [("DEBUG", "MPI version :" ++ v);
               ("DEBUG", "Initializing ExtremeScaleExecutor")]) /\
    _mpi_enabled (globals st') = _mpi_enabled (globals st) /\
    mpi4py (globals st') = mpi4py (globals st).
Proof.
  intros Hrun.
  apply init_returns_inv in Hrun as (attrs' & md & v & _ & He & Hm & Hv & ->).
  split; [reflexivity|]. split; [reflexivity|].
  exists md, v. repeat split; try assumption.
  cbn. unfold Logger_debug. cbn. now rewrite <- app_assoc.
Qed.

Lemma init_uses_module_globals_witness :
  exists st',
    ExtremeScaleExecutor__init__ store_kwargs_init default_args
      (MkSt (load_module this_module (Some mpi4py_3)) fresh_self)
    = (st', inr tt) /\
    records (logger (globals st'))
    = [("DEBUG", "MPI version :3.0.0");
       ("DEBUG", "Initializing ExtremeScaleExecutor")].
Proof.
  eexists. split; [reflexivity|].
  destruct (init_uses_module_globals store_kwargs_init default_args
              (MkSt (load_module this_module (Some mpi4py_3)) fresh_self)
              _ eq_refl) as (_ & _ & md & v & _ & Hm & Hv & Hl & _).
  reflexivity.
Defined.

(** ** C9: the mpi4py guard *)



(** ** C10: the default launch command *)



(** A truthy [launch_cmd] is kept: the stand-in initializer stores it and
    the class does not overwrite it. *)
Example custom_launch_cmd_kept :
  let a := {| label := PyStr "exex"; provider := PyObj "SlurmProvider";
              launch_cmd := PyStr "srun worker.py";
              public_ip := PyStr "10.0.0.1"; worker_ports := PyNone;
              worker_port_range := PyTuple [PyInt 54000; PyInt 55000];
              internal_port_range := PyTuple [PyInt 55000; PyInt 56000];
              storage_access := PyNone; working_dir := PyNone;
              engine_debug := PyBool false; mock := PyBool false;
              managed := PyBool true |} in
  exists g o,
    construct store_kwargs_init (load_module this_module (Some mpi4py_3)) a
    = (g, inr o) /\
    attrs o !! "launch_cmd" = Some (PyStr "srun worker.py").
Proof. eexists _, _. split; reflexivity. Qed.

(** The empty string is falsy as well, and is replaced by the template. *)
Example empty_launch_cmd_replaced :
  let a := {| label := PyStr "exex"; provider := PyObj "SlurmProvider";
              launch_cmd := PyStr "";
              public_ip := PyStr "10.0.0.1"; worker_ports := PyNone;
              worker_port_range := PyTuple [PyInt 54000; PyInt 55000];
              internal_port_range := PyTuple [PyInt 55000; PyInt 56000];
              storage_access := PyNone; working_dir := PyNone;
              engine_debug := PyBool false; mock := PyBool false;
              managed := PyBool true |} in
  exists g o,
    construct store_kwargs_init (load_module this_module (Some mpi4py_3)) a
    = (g, inr o) /\
    attrs o !! "launch_cmd" = Some (PyStr default_launch_cmd).
Proof. eexists _, _. split; reflexivity. Qed.

(** ** Outcomes of a construction *)

(** The constructor call, case by case. *)
Lemma construct_cases sup g a :
  construct sup g a =
  match sup (super_kwargs a) ∅ with
  | inl e => (g, inl e)
  | inr attrs' =>
      if _mpi_enabled g then
        match mpi4py g with
        | None => (g, inl name_error)
        | Some md =>
            match mod_version md with
            | None => (g, inl version_error)
            | Some v =>
                (with_logger g
                   (MkLogger (logger_name (logger g))
                             (records (logger g) ++ init_records v)),
                 inr (MkInstance ExtremeScaleExecutor
                        (if truthy (launch_cmd a) then attrs'
                         else <["launch_cmd" := PyStr default_launch_cmd]> attrs')))
            end
        end
      else (g, inl missing_mpi4py)
  end.
Proof.
  unfold construct.
  destruct (sup (super_kwargs a) ∅) as [e|attrs'] eqn:Hs.
  { by rewrite (init_super_raises sup a (MkSt g (MkInstance _ ∅)) e Hs). }
  destruct (_mpi_enabled g) eqn:He.
  - rewrite (init_enabled sup a (MkSt g (MkInstance _ ∅)) attrs' Hs He).
    cbn. destruct (mpi4py g) as [md|]; [|done].
    destruct (mod_version md) as [v|]; [|done].
    cbn. unfold Logger_debug, init_records. cbn.
    by rewrite <- app_assoc.
  - by rewrite (init_disabled sup a (MkSt g (MkInstance _ ∅)) attrs' Hs He).
Qed.

(** X1: with the module globals as the module body left them (the
    logger in any state), a construction returns an instance exactly
    when the inherited initializer returns for the forwarded arguments
    and [mpi4py] was imported and has a [__version__]. *)
Theorem construct_returns_iff
  sup name (import_result : option PyModule) (lg : Logger) (a : InitArgs) :
  let g := with_logger (load_module name import_result) lg in
  (exists g' o, construct sup g a = (g', inr o)) <->
  (exists attrs', sup (super_kwargs a) ∅ = inr attrs') /\
  (exists v, import_result = Some (MkModule (Some v))).
Proof.
  intros g. rewrite (construct_cases sup g a). subst g.
  destruct (sup (super_kwargs a) ∅) as [e|attrs'].
  { split; [by intros (? & ? & ?)|by intros [[? ?] _]]. }
  destruct import_result as [[[v|]]|]; cbn.
  - split; [intros _|intros _; by eexists _, _].
    split; [by exists attrs'|by exists v].
  - split; [by intros (? & ? & ?)|by intros [_ [? ?]]].
  - split; [by intros (? & ? & ?)|by intros [_ [? ?]]].
Qed.



(** X3: a construction never changes the module globals [_mpi_enabled]
    and [mpi4py] nor the logger's name.  It logs all or nothing: a
    construction that raises leaves the globals exactly as they were,
    and one that returns has appended exactly the two records, the MPI
    version first. *)
Theorem construct_globals_effect sup (g : Globals) (a : InitArgs) :
  let r := construct sup g a in
  _mpi_enabled r.1 = _mpi_enabled g /\
  mpi4py r.1 = mpi4py g /\
  logger_name (logger r.1) = logger_name (logger g) /\
  match r.2 with
  | inl _ => r.1 = g
  | inr _ => exists md v, mpi4py g = Some md /\ mod_version md = Some v /\
               records (logger r.1) = (records (logger g) ++ init_records v)%list
  end.
Proof.
  cbn zeta. rewrite construct_cases.
  destruct (sup (super_kwargs a) ∅) as [e|attrs']; [done|].
  destruct (_mpi_enabled g) eqn:He; [|done].
  destruct (mpi4py g) as [md|] eqn:Hm; [|done].
  destruct (mod_version md) as [v|] eqn:Hv; [|done].
  cbn. repeat split; try done. by exists md, v.
Qed.

(** X4: the module globals influence a construction only through
    [_mpi_enabled] and [mpi4py]: what was logged before, and under which
    logger name, changes neither the exception raised nor the instance
    returned. *)
Theorem construct_ignores_logger sup (g1 g2 : Globals) (a : InitArgs) :
  _mpi_enabled g1 = _mpi_enabled g2 ->
  mpi4py g1 = mpi4py g2 ->
  (construct sup g1 a).2 = (construct sup g2 a).2.
Proof.
  intros He Hm. rewrite !construct_cases, He, Hm.
  destruct (sup (super_kwargs a) ∅) as [e|attrs']; [done|].
  destruct (_mpi_enabled g2); [|done].
  destruct (mpi4py g2) as [md|]; [|done].
  by destruct (mod_version md).
Qed.

Lemma construct_ignores_logger_witness :
  let g1 := with_logger (load_module this_module (Some mpi4py_3))
              (MkLogger "other" [("INFO", "earlier record")]) in
  let g2 := load_module this_module (Some mpi4py_3) in
  _mpi_enabled g1 = _mpi_enabled g2 /\ mpi4py g1 = mpi4py g2 /\
  (construct store_kwargs_init g1 default_args).2
  = (construct store_kwargs_init g2 default_args).2.
Proof.
  intros g1 g2. split; [reflexivity|]. split; [reflexivity|].
  exact (construct_ignores_logger store_kwargs_init g1 g2 default_args
           eq_refl eq_refl).
Defined.

(** ** Argument binding *)

Local Open Scope nat_scope.

Lemma param_names_NoDup : NoDup param_names.
Proof. apply (bool_decide_unpack (NoDup param_names)). by vm_compute. Qed.

Lemma existsb_eqb_elem_of (k : string) (l : list string) :
  existsb (String.eqb k) l = true <-> k ∈ l.
Proof.
  rewrite existsb_exists. split.
  - intros (x & Hx%list_elem_of_In & Heq%String.eqb_eq). by subst.
  - intros Hk. exists k. split; [by apply list_elem_of_In|].
    apply String.eqb_refl.
Qed.

Lemma bind_positional_Some names pos :
  length pos ≤ length names -> bind_positional names pos = Some (zip names pos).
Proof.
  revert names. induction pos as [|v pos IH]; intros names Hlen.
  { by destruct names. }
  destruct names as [|n names]; cbn in *; [lia|].
  rewrite IH by lia. done.
Qed.

Lemma bind_positional_None names pos :
  length names < length pos -> bind_positional names pos = None.
Proof.
  revert names. induction pos as [|v pos IH]; intros names Hlen;
    cbn in *; [lia|].
  destruct names as [|n names]; cbn in *; [done|].
  rewrite IH by lia. done.
Qed.

Lemma fst_zip_take (names : list string) (pos : list PyVal) :
  map fst (zip names pos) = take (length pos) names.
Proof.
  revert pos. induction names as [|n names IH]; intros [|v pos]; cbn;
    [done..|]. by rewrite IH.
Qed.

(** A parameter bound positionally gets the argument at its position. *)
Lemma kwarg_zip names pos i n :
  NoDup names -> names !! i = Some n -> kwarg n (zip names pos) = pos !! i.
Proof.
  revert pos i. induction names as [|m names IH]; intros pos i Hnd Hi;
    [done|].
  apply NoDup_cons in Hnd as [Hm Hnd].
  destruct pos as [|v pos]; [by destruct i|]. cbn.
  destruct i as [|i]; cbn in Hi.
  - inversion Hi; subst. by rewrite String.eqb_refl.
  - assert (m <> n) as Hne.
    { intros ->. apply Hm. by eapply list_elem_of_lookup_2. }
    apply String.eqb_neq in Hne. rewrite Hne. cbn. by apply IH.
Qed.

Lemma keyword_ok_iff pos k :
  keyword_ok (zip param_names pos) k = true <->
  exists i, param_names !! i = Some k /\ length pos ≤ i.
Proof.
  unfold keyword_ok. rewrite andb_true_iff, negb_true_iff, fst_zip_take.
  rewrite existsb_eqb_elem_of, <- not_true_iff_false, existsb_eqb_elem_of.
  rewrite elem_of_take. split.
  - intros [[i Hi]%list_elem_of_lookup Hnot]. exists i. split; [done|].
    destruct (decide (length pos ≤ i)); [done|].
    exfalso. apply Hnot. exists i. split; [done|lia].
  - intros (i & Hi & Hle). split; [by eapply list_elem_of_lookup_2|].
    intros (j & Hj & Hlt).
    pose proof (NoDup_lookup _ _ _ _ param_names_NoDup Hi Hj). lia.
Qed.

Lemma keywords_ok_iff (f : string -> bool) (kw : gmap string PyVal) :
  forallb f (map fst (map_to_list kw)) = true <->
  forall k v, kw !! k = Some v -> f k = true.
Proof.
  rewrite forallb_forall. split.
  - intros H k v Hk. apply H, list_elem_of_In.
    apply (list_elem_of_fmap_2 fst _ (k, v)). by apply elem_of_map_to_list.
  - intros H k Hk%list_elem_of_In.
    apply list_elem_of_fmap in Hk as ([k' v] & -> & Hkv).
    apply elem_of_map_to_list in Hkv. by eapply H.
Qed.

Lemma bind_call_Some_iff pos kw :
  is_Some (bind_call pos kw) <-> fits pos kw.
Proof.
  unfold bind_call, fits.
  destruct (decide (length pos ≤ 12)) as [Hle|Hgt].
  - rewrite (bind_positional_Some param_names pos Hle).
    destruct (forallb _ _) eqn:Hf.
    + split; [intros _|by eexists]. split; [done|].
      pose proof (proj1 (keywords_ok_iff _ _) Hf) as Hf'. intros k v Hk.
      by apply keyword_ok_iff, (Hf' k v).
    + split; [by intros [? ?]|]. intros [_ Hkw]. exfalso.
      apply not_true_iff_false in Hf. apply Hf.
      apply (proj2 (keywords_ok_iff _ _)).
      intros k v Hk. by apply keyword_ok_iff, (Hkw k v).
  - rewrite (bind_positional_None param_names pos) by (cbn; lia).
    split; [by intros [? ?]|]. intros [? _]. lia.
Qed.

(** X5: a call is rejected with the interpreter's [TypeError], before
    the constructor body runs, exactly when its arguments do not fit the
    signature: more than twelve positional arguments, a keyword that
    names no parameter, or a keyword for a parameter that a positional
    argument has bound.  A rejected call leaves the module globals
    untouched. *)
Theorem call_rejects_iff sup (g : Globals) pos (kw : gmap string PyVal) :
  ((call sup g pos kw).2 = inl ArgumentTypeError <->
   ~ (length pos ≤ 12 /\
      forall k v, kw !! k = Some v ->
        exists i, param_names !! i = Some k /\ length pos ≤ i)) /\
  ((call sup g pos kw).2 = inl ArgumentTypeError -> (call sup g pos kw).1 = g).
Proof.
  pose proof (bind_call_Some_iff pos kw) as Hfit. unfold fits in Hfit.
  unfold call. destruct (bind_call pos kw) as [a|].
  - assert (Hno : forall r : Globals * (Uncaught + Instance),
      r = match construct sup g a with
          | (g', inl e) => (g', inl (Raised e))
          | (g', inr o) => (g', inr o)
          end -> r.2 <> inl ArgumentTypeError).
    { intros r ->. by destruct (construct sup g a) as [g' [e|o]]. }
    split; [split|]; intros H.
    + by apply Hno in H.
    + exfalso. apply H, Hfit. by eexists.
    + by apply Hno in H.
  - cbn. split; [|done]. split; [|done].
    intros _ H. apply Hfit in H. by destruct H.
Qed.

Lemma bound_value_passed pos kw i n :
  param_names !! i = Some n ->
  default PyNone (bound_value (zip param_names pos) kw n) = passed pos kw i n.
Proof.
  intros Hi. unfold bound_value, passed.
  rewrite (kwarg_zip _ pos _ _ param_names_NoDup Hi).
  destruct (pos !! i); [done|]. by destruct (kw !! n).
Qed.

Lemma bind_call_fields pos kw a :
  bind_call pos kw = Some a ->
  forall i n, param_names !! i = Some n ->
    param_value a n = Some (passed pos kw i n).
Proof.
  unfold bind_call. intros H.
  destruct (decide (length pos ≤ 12)) as [Hle|Hgt].
  2:{ rewrite (bind_positional_None param_names pos) in H by (cbn; lia).
      done. }
  rewrite (bind_positional_Some param_names pos Hle) in H.
  destruct (forallb _ _); [|done]. inversion H; subst a; clear H.
  intros i n Hi. rewrite <- (bound_value_passed pos kw i n Hi).
  do 12 (destruct i as [|i]; [by inversion Hi; subst n|]).
  by destruct i.
Qed.

Lemma kwarg_super_kwargs a i n :
  param_names !! i = Some n -> kwarg n (super_kwargs a) = param_value a n.
Proof.
  intros Hi. do 12 (destruct i as [|i]; [by inversion Hi; subst n|]).
  by destruct i.
Qed.

(** X6: when a call is accepted, what the caller passed is what the
    inherited initializer receives: under each parameter name, the
    positional argument at that position if there is one, else the
    keyword argument of that name if there is one, else the default of
    the signature. *)
Theorem call_forwards_arguments pos (kw : gmap string PyVal) (a : InitArgs) :
  bind_call pos kw = Some a ->
  forall i n, param_names !! i = Some n ->
    kwarg n (super_kwargs a)
    = Some match pos !! i with
           | Some v => v
           | None =>
               match kw !! n with
               | Some v => v
               | None => default PyNone (param_value default_args n)
               end
           end.
Proof.
  intros H i n Hi. rewrite (kwarg_super_kwargs a i n Hi).
  by apply (bind_call_fields pos kw a H i n Hi).
Qed.

Lemma call_forwards_arguments_witness :
  let pos := [PyStr "exex"; PyObj "SlurmProvider"] in
  let kw : gmap string PyVal := {[ "managed" := PyBool false ]} in
  exists a, bind_call pos kw = Some a /\
    kwarg "provider" (super_kwargs a) = Some (PyObj "SlurmProvider") /\
    kwarg "managed" (super_kwargs a) = Some (PyBool false) /\
    kwarg "public_ip" (super_kwargs a) = Some (PyStr "127.0.0.1").
Proof.
  intros pos kw. eexists. split; [reflexivity|].
  split; [|split].
  - exact (call_forwards_arguments pos kw _ eq_refl 1 "provider" eq_refl).
  - exact (call_forwards_arguments pos kw _ eq_refl 11 "managed" eq_refl).
  - exact (call_forwards_arguments pos kw _ eq_refl 3 "public_ip" eq_refl).
Defined.

Lemma InitArgs_ext (a b : InitArgs) :
  (forall i n, param_names !! i = Some n -> param_value a n = param_value b n) ->
  a = b.
Proof.
  intros H.
  pose proof (H 0 _ eq_refl) as H0. pose proof (H 1 _ eq_refl) as H1.
  pose proof (H 2 _ eq_refl) as H2. pose proof (H 3 _ eq_refl) as H3.
  pose proof (H 4 _ eq_refl) as H4. pose proof (H 5 _ eq_refl) as H5.
  pose proof (H 6 _ eq_refl) as H6. pose proof (H 7 _ eq_refl) as H7.
  pose proof (H 8 _ eq_refl) as H8. pose proof (H 9 _ eq_refl) as H9.
  pose proof (H 10 _ eq_refl) as H10. pose proof (H 11 _ eq_refl) as H11.
  destruct a, b. cbn in *. congruence.
Qed.

Lemma list_to_map_kwarg (l : list (string * PyVal)) n :
  (list_to_map l : gmap string PyVal) !! n = kwarg n l.
Proof.
  induction l as [|[k v] l IH]; cbn; [apply lookup_empty|].
  destruct (String.eqb_spec k n) as [->|Hne].
  - apply lookup_insert_eq.
  - by rewrite lookup_insert_ne.
Qed.

Lemma kwarg_Some_fst (l : list (string * PyVal)) n v :
  kwarg n l = Some v -> n ∈ map fst l.
Proof.
  induction l as [|[k w] l IH]; cbn; [done|].
  destruct (String.eqb_spec k n) as [->|Hne].
  - intros _. apply list_elem_of_here.
  - intros H. by apply list_elem_of_further, IH.
Qed.

(** X7: positional and keyword arguments are interchangeable: a call
    with at most twelve positional arguments behaves exactly as the call
    that passes the same values by keyword, each under the name of the
    parameter at its position. *)
Theorem positional_as_keywords sup (g : Globals) (pos : list PyVal) :
  length pos ≤ 12 ->
  call sup g pos ∅ = call sup g [] (list_to_map (zip param_names pos)).
Proof.
  intros Hlen. unfold call.
  destruct (proj2 (bind_call_Some_iff pos ∅)) as [a Ha].
  { split; [done|]. intros k v Hk. by rewrite lookup_empty in Hk. }
  destruct (proj2 (bind_call_Some_iff [] (list_to_map (zip param_names pos))))
    as [b Hb].
  { split; [cbn; lia|]. intros k v Hk. rewrite list_to_map_kwarg in Hk.
    apply kwarg_Some_fst, list_elem_of_lookup in Hk as [i Hi].
    rewrite fst_zip_take in Hi. apply lookup_take_Some in Hi as [Hi _].
    exists i. split; [done|cbn; lia]. }
  rewrite Ha, Hb. assert (a = b) as ->; [|done].
  apply InitArgs_ext. intros i n Hi.
  rewrite (bind_call_fields _ _ _ Ha i n Hi), (bind_call_fields _ _ _ Hb i n Hi).
  f_equal. unfold passed. rewrite lookup_empty, list_to_map_kwarg.
  rewrite (kwarg_zip _ pos _ _ param_names_NoDup Hi).
  by destruct i.
Qed.

Lemma positional_as_keywords_witness :
  (2 ≤ 12) /\
  call store_kwargs_init (load_module this_module (Some mpi4py_3))
       [PyStr "exex"; PyObj "SlurmProvider"] ∅
  = call store_kwargs_init (load_module this_module (Some mpi4py_3)) []
         (list_to_map (zip param_names [PyStr "exex"; PyObj "SlurmProvider"])).
Proof.
  split; [lia|].
  apply (positional_as_keywords store_kwargs_init
           (load_module this_module (Some mpi4py_3))
           [PyStr "exex"; PyObj "SlurmProvider"]).
  cbn. lia.
Defined.

(** ** The script *)



End ExexProps.

(** * Properties of the core *)

Module CoreProps.
Import Core CoreInv.
Local Open Scope nat_scope.

(** ** The client's bookkeeping *)

Lemma client_ok_init : client_ok (client init).
Proof.
  split; cbn; [reflexivity|intros [|h] f H|intros t h H|intros [|h] f H];
    discriminate H.
Qed.

Lemma submit_client_ok cfg p c : client_ok c -> client_ok (submit cfg p c).1.
Proof.
  intros [Hn Hi Ht Hu]. unfold submit.
  destruct (Nat.leb _ _); [by split|]. split; cbn.
  - rewrite length_app, Hn. cbn. lia.
  - intros h f Hl. destruct (decide (h < length (futures c))) as [Hlt|Hge].
    + rewrite lookup_app_l in Hl by done. by apply Hi.
    + rewrite lookup_app_r in Hl by lia.
      destruct (h - length (futures c)) as [|k] eqn:Hk; cbn in Hl; [|done].
      inversion Hl; subst; cbn. rewrite Hn. f_equal. lia.
  - intros t h Hl. destruct (decide (next_task_id c = t)) as [<-|Hne].
    + rewrite lookup_insert_eq in Hl. inversion Hl; subst. split; [done|].
      exists (MkFuture (next_task_id c) None false). split; [|reflexivity].
      rewrite lookup_app_r by lia. by rewrite Nat.sub_diag.
    + rewrite lookup_insert_ne in Hl by done.
      destruct (Ht _ _ Hl) as (-> & f & Hf & Hr). split; [done|].
      exists f. split; [|done]. rewrite lookup_app_l; [done|].
      by eapply lookup_lt_Some.
  - intros h f Hl Hr. destruct (decide (h < length (futures c))) as [Hlt|Hge].
    + rewrite lookup_app_l in Hl by done.
      rewrite lookup_insert_ne; [by eapply Hu|]. rewrite Hn. lia.
    + rewrite lookup_app_r in Hl by lia.
      destruct (h - length (futures c)) as [|k] eqn:Hk; cbn in Hl; [|done].
      assert (h = length (futures c)) as -> by lia.
      rewrite Hn. apply lookup_insert_eq.
Qed.

Lemma resolve_entry_client_ok c t h r out dr :
  client_ok c -> table c !! t = Some h ->
  client_ok (MkClient (next_task_id c) (delete t (table c))
                      (alter (resolve r) h (futures c)) out dr).
Proof.
  intros [Hn Hi Ht Hu] Hth. split; cbn.
  - by rewrite length_alter.
  - intros h' f Hl. destruct (decide (h = h')) as [<-|Hne].
    + rewrite list_lookup_alter_eq in Hl.
      destruct (futures c !! h) as [f0|] eqn:Hf0; [|done].
      inversion Hl; subst; cbn. by apply Hi.
    + rewrite list_lookup_alter_ne in Hl by done. by apply Hi.
  - intros t' h' Hl. destruct (decide (t = t')) as [<-|Hne].
    + by rewrite lookup_delete_eq in Hl.
    + rewrite lookup_delete_ne in Hl by done.
      destruct (Ht _ _ Hl) as (-> & f & Hf & Hr). split; [done|].
      exists f. split; [|done]. rewrite list_lookup_alter_ne; [done|].
      intros ->. destruct (Ht _ _ Hth) as [-> _]. done.
  - intros h' f Hl Hr. destruct (decide (h = h')) as [<-|Hne].
    + rewrite list_lookup_alter_eq in Hl.
      destruct (futures c !! h) as [f0|]; [|done]. by inversion Hl; subst.
    + rewrite list_lookup_alter_ne in Hl by done.
      destruct (Ht _ _ Hth) as [-> _].
      rewrite lookup_delete_ne; [by eapply Hu|]. lia.
Qed.

Lemma route_client_ok m c : client_ok c -> client_ok (route m c).
Proof.
  intros Hc. unfold route.
  destruct (table c !! msg_task_id m) as [h|] eqn:Hh;
    [destruct (resolution_of (body m))|].
  - by apply resolve_entry_client_ok.
  - destruct Hc. by split.
  - destruct Hc. by split.
Qed.

Lemma cancel_future_client_ok t c :
  client_ok c -> client_ok (cancel_future t c).1.
Proof.
  intros Hc. unfold cancel_future.
  destruct (table c !! t) as [h|] eqn:Hh; [|done].
  by apply resolve_entry_client_ok.
Qed.

Lemma teardown_client_ok c : client_ok c -> client_ok (teardown c).
Proof.
  intros [Hn Hi Ht Hu]. split; cbn.
  - by rewrite length_fmap.
  - intros h f Hl. rewrite list_lookup_fmap in Hl.
    destruct (futures c !! h) as [f0|] eqn:Hf0; [|done].
    inversion Hl; subst. destruct (resolved f0); cbn; by apply Hi.
  - intros t h Hl. by rewrite lookup_empty in Hl.
  - intros h f Hl Hr. rewrite list_lookup_fmap in Hl.
    destruct (futures c !! h) as [f0|] eqn:Hf0; [|done].
    inversion Hl; subst. destruct (resolved f0) eqn:Hr0; cbn in Hr; congruence.
Qed.

(** A Future that is resolved has no mapping entry left. *)
Lemma resolved_not_in_table c f :
  client_ok c -> f ∈ futures c -> resolved f = true ->
  table c !! fut_task_id f = None.
Proof.
  intros [Hn Hi Ht Hu] Hin Hres.
  apply list_elem_of_lookup in Hin as [h Hh].
  destruct (table c !! fut_task_id f) as [h'|] eqn:Hl; [|done].
  destruct (Ht _ _ Hl) as (Heq & f' & Hf' & Hr').
  rewrite (Hi _ _ Hh) in Heq. apply Nat2N.inj in Heq. subst h'.
  congruence.
Qed.

(** ** The Result Router *)

Lemma route_unknown m c :
  table c !! msg_task_id m = None ->
  route m c = MkClient (next_task_id c) (table c) (futures c) (outbound c)
                       (dropped c ++ [m]).
Proof. intros H. unfold route. by rewrite H. Qed.

Lemma route_keeps m c :
  next_task_id (route m c) = next_task_id c /\
  outbound (route m c) = outbound c.
Proof.
  unfold route.
  by destruct (table c !! msg_task_id m), (resolution_of (body m)).
Qed.

Lemma route_forgets m c :
  table (route m c) !! msg_task_id m = None \/ resolution_of (body m) = None.
Proof.
  unfold route. destruct (table c !! msg_task_id m) as [h|] eqn:Hh.
  - destruct (resolution_of (body m)); [left|by right].
    cbn. apply lookup_delete_eq.
  - left. done.
Qed.

Lemma route_twice m c :
  futures (route m (route m c)) = futures (route m c) /\
  table (route m (route m c)) = table (route m c).
Proof.
  destruct (route_forgets m c) as [H|H].
  - by rewrite (route_unknown m (route m c) H).
  - generalize (route m c). intros c'. unfold route. rewrite H.
    by destruct (table c' !! msg_task_id m).
Qed.

(** ** Capacity *)

Lemma Forall_filter_keep {A} (P Q : A -> Prop) `{!forall x, Decision (Q x)}
  (l : list A) :
  Forall P l -> Forall P (filter Q l).
Proof.
  rewrite !Forall_forall. intros HP x [_ Hx]%list_elem_of_filter.
  by apply HP.
Qed.

Lemma most_spare_None ws : most_spare ws = None -> ws = [].
Proof.
  destruct ws as [|w rest]; [done|]. cbn [most_spare].
  destruct (most_spare rest) as [[j' w']|]; [|done].
  by destruct (Nat.ltb _ _).
Qed.

Lemma most_spare_lookup ws j w :
  most_spare ws = Some (j, w) -> ws !! j = Some w.
Proof.
  revert j w. induction ws as [|w0 rest IH]; intros j w H;
    cbn [most_spare] in H; [done|].
  destruct (most_spare rest) as [[j' w']|].
  - destruct (Nat.ltb _ _); inversion H; subst; cbn; [by apply IH|done].
  - by inversion H.
Qed.

(** The chosen worker has the most spare capacity, and is the first of
    those that have it. *)
Lemma most_spare_max ws j w :
  most_spare ws = Some (j, w) ->
  (forall w', w' ∈ ws -> spare_capacity w' ≤ spare_capacity w) /\
  (forall k w', k < j -> ws !! k = Some w' ->
                spare_capacity w' < spare_capacity w).
Proof.
  revert j w. induction ws as [|w0 rest IH]; intros j w H;
    cbn [most_spare] in H; [done|].
  destruct (most_spare rest) as [[j' w']|] eqn:Hr.
  - destruct (IH _ _ eq_refl) as [Hmax Hfirst].
    destruct (Nat.ltb _ _) eqn:Hlt; inversion H; subst.
    + apply Nat.ltb_lt in Hlt. split.
      * intros x [->|Hx]%elem_of_cons; [lia|by apply Hmax].
      * intros [|k] x Hk Hx; cbn in Hx; [inversion Hx; by subst|].
        apply (Hfirst k); [lia|done].
    + apply Nat.ltb_ge in Hlt. split.
      * intros x [->|Hx]%elem_of_cons; [done|].
        specialize (Hmax _ Hx). lia.
      * intros k x Hk. lia.
  - inversion H; subst. apply most_spare_None in Hr as ->.
    split; [|intros; lia]. by intros x ->%list_elem_of_singleton.
Qed.

Lemma size_list_to_set_le (l : list N) :
  size (list_to_set l : gset N) ≤ length l.
Proof.
  induction l as [|x l IH]; cbn; [by rewrite size_empty|].
  rewrite size_union_alt, size_singleton.
  assert (size ((list_to_set l : gset N) ∖ {[x]}) ≤ size (list_to_set l : gset N)).
  { apply subseteq_size. by intros y [Hy _]%elem_of_difference. }
  lia.
Qed.

Lemma assign_within ts w :
  within_capacity w -> length ts ≤ spare_capacity w ->
  within_capacity (assign ts w).
Proof.
  unfold within_capacity, spare_capacity, assign. cbn. intros Hw Hts.
  rewrite size_union_alt.
  assert (size ((list_to_set ts : gset N) ∖ in_flight_tasks w)
          ≤ size (list_to_set ts : gset N)).
  { apply subseteq_size. by intros y [Hy _]%elem_of_difference. }
  pose proof (size_list_to_set_le ts). lia.
Qed.

Lemma release_within owner t w :
  within_capacity w -> within_capacity (release owner t w).
Proof.
  unfold within_capacity, release. intros Hw.
  destruct (decide _); [|done]. cbn.
  etrans; [|exact Hw]. apply subseteq_size.
  by intros y [Hy _]%elem_of_difference.
Qed.

(** What one turn of the dispatch loop does, spelled out. *)
Lemma dispatch_step_Some cfg i i' :
  dispatch_step cfg i = Some i' ->
  exists j w n,
    most_spare (workers i) = Some (j, w) /\
    workers i !! j = Some w /\
    pending i <> [] /\
    1 ≤ n /\ n ≤ spare_capacity w /\ n ≤ Pos.to_nat (batch_size cfg) /\
    i' = MkInterchange
           (mark_dispatched (worker_id w) (take n (pending i)) (envelopes i))
           (drop n (pending i))
           (alter (assign (take n (pending i))) j (workers i))
           (batches i ++ [MkBatch (next_batch_id i) (take n (pending i))
                                  (worker_id w)])
           (N.succ (next_batch_id i))
           (egress i).
Proof.
  unfold dispatch_step. intros H.
  destruct (pending i) as [|t0 rest] eqn:Hp; [done|].
  destruct (most_spare (workers i)) as [[j w]|] eqn:Hm; [|done].
  destruct (Nat.eqb (spare_capacity w) 0) eqn:Hz; [done|].
  apply Nat.eqb_neq in Hz. inversion H; subst.
  exists j, w, (Nat.min (Pos.to_nat (batch_size cfg)) (spare_capacity w)).
  split; [done|]. split; [by apply most_spare_lookup|]. split; [done|].
  pose proof (Pos2Nat.is_pos (batch_size cfg)).
  repeat split; lia.
Qed.

Lemma dispatch_step_cap_ok cfg i i' :
  cap_ok i -> dispatch_step cfg i = Some i' -> cap_ok i'.
Proof.
  intros Hc (j & w & n & _ & Hj & _ & _ & Hn & _ & ->)%dispatch_step_Some.
  unfold cap_ok in *. cbn. apply Forall_alter; [done|].
  intros w' Hw' Hok. assert (w' = w) as -> by congruence.
  apply assign_within; [done|]. rewrite length_take. lia.
Qed.

Lemma dispatch_loop_cap_ok fuel cfg i :
  cap_ok i -> cap_ok (dispatch_loop fuel cfg i).
Proof.
  revert i. induction fuel as [|fuel IH]; intros i Hc; cbn; [done|].
  destruct (dispatch_step cfg i) as [i'|] eqn:Hs; [|done].
  apply IH. by eapply dispatch_step_cap_ok.
Qed.

Lemma dispatch_cap_ok cfg i : cap_ok i -> cap_ok (dispatch cfg i).
Proof. apply dispatch_loop_cap_ok. Qed.

Lemma handle_result_cap_ok cfg m i :
  cap_ok i -> cap_ok (handle_result cfg m i).
Proof.
  intros Hc. unfold handle_result.
  destruct (envelopes i !! msg_task_id m) as [e|]; [|done].
  destruct (terminal_state (body m)); [|done].
  destruct (state e); try done.
  apply dispatch_cap_ok. unfold cap_ok in *. cbn.
  apply Forall_fmap. eapply Forall_impl; [exact Hc|].
  intros w Hw. by apply release_within.
Qed.

Lemma requeue_lost_workers cfg t i :
  workers (requeue_lost cfg t i) = workers i.
Proof.
  unfold requeue_lost. destruct (envelopes i !! t); [|done].
  by destruct (retries_exhausted _ _).
Qed.

Lemma requeue_fold_workers cfg ts i :
  workers (foldr (requeue_lost cfg) i ts) = workers i.
Proof.
  induction ts as [|t ts IH]; cbn; [done|].
  by rewrite requeue_lost_workers.
Qed.

Lemma watchdog_tick_cap_ok cfg now i :
  cap_ok i -> cap_ok (watchdog_tick cfg now i).
Proof.
  intros Hc. unfold watchdog_tick. apply dispatch_cap_ok.
  unfold cap_ok in *. rewrite requeue_fold_workers. cbn.
  by apply Forall_filter_keep.
Qed.

Lemma register_cap_ok w cap now i : cap_ok i -> cap_ok (register w cap now i).
Proof.
  intros Hc. unfold register. destruct (decide _); [done|].
  unfold cap_ok in *. cbn. apply Forall_app. split; [done|].
  constructor; [|constructor]. unfold within_capacity. cbn.
  rewrite size_empty. lia.
Qed.

Lemma heartbeat_cap_ok w now i : cap_ok i -> cap_ok (heartbeat w now i).
Proof.
  intros Hc. unfold cap_ok in *. cbn. apply Forall_fmap.
  eapply Forall_impl; [exact Hc|]. intros r Hr. cbn.
  by destruct (decide _).
Qed.

Lemma unregister_cap_ok w i : cap_ok i -> cap_ok (unregister w i).
Proof. intros Hc. unfold cap_ok in *. cbn. by apply Forall_filter_keep. Qed.

Lemma requeue_task_cap_ok t i : cap_ok i -> cap_ok (requeue_task t i).
Proof.
  intros Hc. unfold requeue_task.
  destruct (envelopes i !! t) as [e|]; [|done].
  destruct (state e); try done.
  unfold cap_ok in *. cbn. apply Forall_fmap.
  eapply Forall_impl; [exact Hc|]. intros w Hw. by apply release_within.
Qed.

Lemma cancel_queued_cap_ok t i : cap_ok i -> cap_ok (cancel_queued t i).
Proof.
  intros Hc. unfold cancel_queued.
  destruct (envelopes i !! t) as [e|]; [|done]. by destruct (state e).
Qed.

Lemma forget_cap_ok t i : cap_ok i -> cap_ok (forget t i).
Proof.
  intros Hc. unfold forget.
  destruct (envelopes i !! t) as [e|]; [|done]. by destruct (state e).
Qed.

(** Every event preserves the capacity bound. *)
Lemma exec_cap_ok cfg l s :
  cap_ok (ichg s) -> cap_ok (ichg (exec cfg l s)).
Proof.
  intros Hc. destruct l; cbn; try done.
  - by destruct (outbound (client s)).
  - by apply dispatch_cap_ok.
  - by apply handle_result_cap_ok.
  - by apply heartbeat_cap_ok.
  - by apply watchdog_tick_cap_ok.
  - by apply register_cap_ok.
  - by apply unregister_cap_ok.
  - by apply requeue_task_cap_ok.
  - by destruct (egress (ichg s)).
  - destruct (cancel_future t (client s)) as [c []]; [|done].
    by apply cancel_queued_cap_ok.
  - by apply forget_cap_ok.
Qed.

(** ** The interchange's bookkeeping *)

Lemma moves_refl E m : moves (same_or E) m m.
Proof.
  intros t e' H. exists e'. split; [done|].
  unfold same_or. by rewrite bool_decide_eq_true_2.
Qed.

Lemma moves_trans R1 R2 R3 m1 m2 m3 :
  (forall a b c, R1 a b = true -> R2 b c = true -> R3 a c = true) ->
  moves R1 m1 m2 -> moves R2 m2 m3 -> moves R3 m1 m3.
Proof.
  intros HR H12 H23 t e3 H3.
  destruct (H23 _ _ H3) as (e2 & H2 & Hr2).
  destruct (H12 _ _ H2) as (e1 & H1 & Hr1).
  exists e1. split; [done|]. by eapply HR.
Qed.

Lemma moves_weaken (R1 R2 : TaskState -> TaskState -> bool) m m' :
  (forall a b, R1 a b = true -> R2 a b = true) ->
  moves R1 m m' -> moves R2 m m'.
Proof.
  intros HR H t e' He'. destruct (H _ _ He') as (e & He & Hr).
  exists e. split; [done|]. by apply HR.
Qed.

Lemma moves_None R m m' t : moves R m m' -> m !! t = None -> m' !! t = None.
Proof.
  intros H Hn. destruct (m' !! t) as [e'|] eqn:He'; [|done].
  destruct (H _ _ He') as (e & He & _). congruence.
Qed.

(** *** List helpers *)

Lemma elem_of_alter_inv {A} (f : A -> A) (l : list A) j x :
  x ∈ alter f j l -> x ∈ l \/ exists y, l !! j = Some y /\ x = f y.
Proof.
  intros [k Hk]%list_elem_of_lookup. destruct (decide (j = k)) as [<-|Hne].
  - rewrite list_lookup_alter_eq in Hk.
    destruct (l !! j) as [y|] eqn:Hy; [|done].
    right. exists y. split; [done|]. by inversion Hk.
  - rewrite list_lookup_alter_ne in Hk by done.
    left. by eapply list_elem_of_lookup_2.
Qed.

Lemma fmap_alter_same {A B} (g : A -> B) (f : A -> A) (l : list A) j :
  (forall x, g (f x) = g x) -> g <$> alter f j l = g <$> l.
Proof.
  intros Hgf. revert j. induction l as [|x l IH]; intros [|j]; cbn; [done..| |].
  - by rewrite Hgf.
  - f_equal. apply IH.
Qed.

Lemma NoDup_fmap_eq {A B} (f : A -> B) (l : list A) x y :
  NoDup (f <$> l) -> x ∈ l -> y ∈ l -> f x = f y -> x = y.
Proof.
  induction l as [|z l IH]; cbn; [by intros _ ?%elem_of_nil|].
  intros [Hz Hl]%NoDup_cons [->|Hx]%elem_of_cons [->|Hy]%elem_of_cons Hf.
  - done.
  - exfalso. apply Hz. rewrite Hf. by apply list_elem_of_fmap_2.
  - exfalso. apply Hz. rewrite <- Hf. by apply list_elem_of_fmap_2.
  - by apply IH.
Qed.

Lemma NoDup_fmap_filter {A B} (f : A -> B) (P : A -> Prop)
  `{!forall x, Decision (P x)} (l : list A) :
  NoDup (f <$> l) -> NoDup (f <$> filter P l).
Proof.
  intros Hnd. apply (sublist_NoDup (f <$> filter P l) (f <$> l)); [done|].
  apply fmap_sublist, sublist_filter.
Qed.

(** *** Marking a batch *)

Lemma mark_dispatched_lookup w ts m t :
  mark_dispatched w ts m !! t
  = if decide (t ∈ ts) then set_state Dispatched (Some w) <$> m !! t
    else m !! t.
Proof.
  induction ts as [|a ts IH]; cbn.
  - rewrite decide_False; [done|]. apply not_elem_of_nil.
  - fold (mark_dispatched w ts m). rewrite lookup_alter.
    destruct (decide (a = t)) as [->|Hne].
    + rewrite decide_True by apply list_elem_of_here.
      rewrite IH. destruct (decide (t ∈ ts)); [|done].
      by destruct (m !! t).
    + rewrite IH. destruct (decide (t ∈ ts)) as [Hin|Hnin].
      * rewrite decide_True; [done|]. by apply list_elem_of_further.
      * rewrite decide_False; [done|].
        intros [?|?]%elem_of_cons; congruence.
Qed.

(** *** Dispatch *)

Lemma dispatch_step_ok cfg i i' :
  ichg_ok i -> dispatch_step cfg i = Some i' ->
  ichg_ok i' /\
  moves (same_or e_dispatch) (envelopes i) (envelopes i') /\
  length (pending i') < length (pending i).
Proof.
  intros [Hnd Hp Hf Hids]
    (j & w & n & _ & Hj & Hne & Hn1 & _ & _ & ->)%dispatch_step_Some.
  pose proof Hnd as Hnd'. rewrite <- (take_drop n (pending i)) in Hnd'.
  apply NoDup_app in Hnd' as (_ & Hdisj & Hndd).
  assert (Htake : forall t, t ∈ take n (pending i) -> t ∈ pending i).
  { intros t Ht. rewrite <- (take_drop n (pending i)).
    apply elem_of_app. by left. }
  assert (Hdrop : forall t, t ∈ drop n (pending i) -> t ∈ pending i).
  { intros t Ht. rewrite <- (take_drop n (pending i)).
    apply elem_of_app. by right. }
  assert (Hkeep : forall t e, envelopes i !! t = Some e ->
            state e = Dispatched ->
            mark_dispatched (worker_id w) (take n (pending i)) (envelopes i) !! t
            = Some e).
  { intros t e He Hst. rewrite mark_dispatched_lookup.
    destruct (decide (t ∈ take n (pending i))) as [Hin|]; [|done].
    destruct (Hp _ (Htake _ Hin)) as (e0 & He0 & Hq). congruence. }
  split; [split; cbn|split; cbn].
  - done.
  - intros t Ht. destruct (Hp _ (Hdrop _ Ht)) as (e & He & Hq).
    exists e. split; [|done]. rewrite mark_dispatched_lookup.
    rewrite decide_False; [done|]. intros Hin. by apply (Hdisj t).
  - intros w' t [Hw'|(y & Hy & ->)]%elem_of_alter_inv Ht.
    + destruct (Hf _ _ Hw' Ht) as (e & He & Hst & Ha).
      exists e. split; [by apply Hkeep|done].
    + assert (y = w) as -> by congruence. cbn in Ht.
      apply elem_of_union in Ht as [Ht|Ht].
      * destruct (Hf w t) as (e & He & Hst & Ha);
          [by eapply list_elem_of_lookup_2|done|].
        exists e. split; [by apply Hkeep|done].
      * apply elem_of_list_to_set in Ht.
        destruct (Hp _ (Htake _ Ht)) as (e & He & Hq).
        exists (set_state Dispatched (Some (worker_id w)) e).
        split; [|done]. rewrite mark_dispatched_lookup.
        rewrite decide_True by done. by rewrite He.
  - by rewrite fmap_alter_same.
  - intros t e' He'. rewrite mark_dispatched_lookup in He'.
    destruct (decide (t ∈ take n (pending i))) as [Hin|].
    + destruct (Hp _ (Htake _ Hin)) as (e & He & Hq).
      exists e. split; [done|]. rewrite He in He'.
      inversion He'; subst; cbn. by rewrite Hq.
    + exists e'. split; [done|]. unfold same_or.
      by rewrite bool_decide_eq_true_2.
  - rewrite length_drop. destruct (pending i); [done|]. cbn. lia.
Qed.

Lemma same_or_dispatch_trans a b c :
  same_or e_dispatch a b = true -> same_or e_dispatch b c = true ->
  same_or e_dispatch a c = true.
Proof. by destruct a, b, c. Qed.

Lemma dispatch_loop_ok fuel cfg i :
  ichg_ok i ->
  ichg_ok (dispatch_loop fuel cfg i) /\
  moves (same_or e_dispatch) (envelopes i)
        (envelopes (dispatch_loop fuel cfg i)).
Proof.
  revert i. induction fuel as [|fuel IH]; intros i Hi; cbn.
  { split; [done|apply moves_refl]. }
  destruct (dispatch_step cfg i) as [i'|] eqn:Hs.
  - destruct (dispatch_step_ok _ _ _ Hi Hs) as (Hi' & Hm & _).
    destruct (IH _ Hi') as [Hok Hm']. split; [done|].
    eapply moves_trans; [apply same_or_dispatch_trans|done..].
  - split; [done|apply moves_refl].
Qed.

Lemma dispatch_ok cfg i :
  ichg_ok i ->
  ichg_ok (dispatch cfg i) /\
  moves (same_or e_dispatch) (envelopes i) (envelopes (dispatch cfg i)).
Proof. apply dispatch_loop_ok. Qed.

(** The fuel is enough: when [dispatch] returns, the loop condition of
    section 4.3 is false. *)
Lemma dispatch_loop_done fuel cfg i :
  length (pending i) ≤ fuel ->
  dispatch_step cfg (dispatch_loop fuel cfg i) = None.
Proof.
  revert i. induction fuel as [|fuel IH]; intros i Hlen; cbn.
  - unfold dispatch_step. destruct (pending i); [done|cbn in Hlen; lia].
  - destruct (dispatch_step cfg i) as [i'|] eqn:Hs; [|done].
    apply IH.
    apply dispatch_step_Some in Hs
      as (j & w & n & _ & _ & Hne & Hn1 & _ & _ & ->).
    cbn. rewrite length_drop. destruct (pending i); [done|].
    cbn in *. lia.
Qed.

Lemma dispatch_done cfg i :
  let i' := dispatch cfg i in
  pending i' = [] \/
  forall w, w ∈ workers i' -> capacity w ≤ size (in_flight_tasks w).
Proof.
  cbn. pose proof (dispatch_loop_done (length (pending i)) cfg i (le_n _)) as H.
  fold (dispatch cfg i) in H. unfold dispatch_step in H.
  destruct (pending (dispatch cfg i)) as [|t rest]; [by left|right].
  destruct (most_spare (workers (dispatch cfg i))) as [[j w0]|] eqn:Hm.
  - destruct (Nat.eqb (spare_capacity w0) 0) eqn:Hz; [|done].
    apply Nat.eqb_eq in Hz. intros w Hw.
    destruct (most_spare_max _ _ _ Hm) as [Hmax _].
    specialize (Hmax _ Hw). unfold spare_capacity in *. lia.
  - apply most_spare_None in Hm. rewrite Hm. by intros w ?%elem_of_nil.
Qed.

(** *** Results and requeues *)

Lemma fmap_fmap_same {A B} (g : A -> B) (f : A -> A) (l : list A) :
  (forall x, g (f x) = g x) -> g <$> (f <$> l) = g <$> l.
Proof.
  intros Hgf. induction l as [|x l IH]; cbn; [done|]. by rewrite Hgf, IH.
Qed.

Lemma release_worker_id owner t w :
  worker_id (release owner t w) = worker_id w.
Proof. unfold release. by destruct (decide _). Qed.

(** After the owner released [t], no worker holds it, and what the
    workers hold is as before. *)
Lemma released_in_flight i t e w' t' :
  ichg_ok i -> envelopes i !! t = Some e ->
  w' ∈ release (assigned_worker e) t <$> workers i ->
  t' ∈ in_flight_tasks w' ->
  t' <> t /\
  exists e', envelopes i !! t' = Some e' /\ state e' = Dispatched /\
             assigned_worker e' = Some (worker_id w').
Proof.
  intros [_ _ Hf _] He (w & -> & Hw)%list_elem_of_fmap Ht'.
  rewrite release_worker_id. unfold release in Ht'.
  destruct (decide (assigned_worker e = Some (worker_id w))) as [Ho|Ho];
    cbn in Ht'.
  - apply elem_of_difference in Ht' as [Ht' Hne].
    split; [by intros ->; apply Hne, elem_of_singleton|]. by apply Hf.
  - destruct (Hf _ _ Hw Ht') as (e' & He' & Hst & Ha).
    split; [|by exists e']. intros ->. congruence.
Qed.

Lemma detach_ok i t e e' pend eg :
  ichg_ok i -> envelopes i !! t = Some e -> state e = Dispatched ->
  NoDup pend ->
  (forall x, x ∈ pend -> x = t /\ state e' = Queued \/ x <> t /\ x ∈ pending i) ->
  ichg_ok (MkInterchange (<[t := e']> (envelopes i)) pend
             (release (assigned_worker e) t <$> workers i)
             (batches i) (next_batch_id i) eg).
Proof.
  intros Hi He Hst Hnd Hpend. split; cbn.
  - done.
  - intros x [[-> Hq]|[Hne Hx]]%Hpend.
    + exists e'. by rewrite lookup_insert_eq.
    + rewrite lookup_insert_ne by done. by apply (ok_pending i Hi).
  - intros w' t' Hw' Ht'.
    destruct (released_in_flight _ _ _ _ _ Hi He Hw' Ht') as (Hne & H).
    by rewrite lookup_insert_ne.
  - rewrite fmap_fmap_same by apply release_worker_id.
    apply (ok_worker_ids i Hi).
Qed.

Lemma not_pending_dispatched i t e :
  ichg_ok i -> envelopes i !! t = Some e -> state e <> Queued ->
  t ∉ pending i.
Proof.
  intros Hi He Hst Hin.
  destruct (ok_pending i Hi _ Hin) as (e0 & He0 & Hq). congruence.
Qed.

Lemma moves_insert E m t e e' :
  m !! t = Some e -> same_or E (state e) (state e') = true ->
  moves (same_or E) m (<[t := e']> m).
Proof.
  intros He HR t' e1 H1. destruct (decide (t = t')) as [<-|Hne].
  - rewrite lookup_insert_eq in H1. inversion H1; subst. by exists e.
  - rewrite lookup_insert_ne in H1 by done. exists e1. split; [done|].
    unfold same_or. by rewrite bool_decide_eq_true_2.
Qed.

Lemma moves_delete E m t : moves (same_or E) m (delete t m).
Proof.
  intros t' e1 H1. destruct (decide (t = t')) as [<-|Hne].
  - by rewrite lookup_delete_eq in H1.
  - rewrite lookup_delete_ne in H1 by done. exists e1. split; [done|].
    unfold same_or. by rewrite bool_decide_eq_true_2.
Qed.

Lemma handle_result_ok cfg m i :
  ichg_ok i ->
  ichg_ok (handle_result cfg m i) /\
  moves (same_or (edge false)) (envelopes i)
        (envelopes (handle_result cfg m i)).
Proof.
  intros Hi. unfold handle_result.
  destruct (envelopes i !! msg_task_id m) as [e|] eqn:He;
    [|split; [done|apply moves_refl]].
  destruct (terminal_state (body m)) as [st|] eqn:Hts;
    [|split; [done|apply moves_refl]].
  destruct (state e) eqn:Hst; try (split; [done|apply moves_refl]).
  match goal with |- context [dispatch cfg ?x] => set (i1 := x) end.
  assert (Hi1 : ichg_ok i1).
  { apply detach_ok; try done; [apply (ok_pending_nodup i Hi)|].
    intros x Hx. right. split; [|done]. intros ->.
    eapply not_pending_dispatched; [done..| |done]. by rewrite Hst. }
  destruct (dispatch_ok cfg i1 Hi1) as [Hok Hm]. split; [done|].
  eapply (moves_trans (same_or e_result));
    [|eapply moves_insert; [exact He|]|exact Hm].
  - by intros [] [] [].
  - cbn. rewrite Hst. by destruct (body m); inversion Hts; subst.
Qed.

Lemma requeue_task_ok t i :
  ichg_ok i ->
  ichg_ok (requeue_task t i) /\
  moves (same_or (edge true)) (envelopes i) (envelopes (requeue_task t i)).
Proof.
  intros Hi. unfold requeue_task.
  destruct (envelopes i !! t) as [e|] eqn:He;
    [|split; [done|apply moves_refl]].
  destruct (state e) eqn:Hst; try (split; [done|apply moves_refl]).
  assert (Hnp : t ∉ pending i).
  { eapply not_pending_dispatched; [done..|]. by rewrite Hst. }
  split.
  - apply detach_ok; try done.
    + apply NoDup_cons. split; [done|apply (ok_pending_nodup i Hi)].
    + intros x [->|Hx]%elem_of_cons; [by left|].
      right. split; [|done]. by intros ->.
  - cbn. eapply moves_insert; [done|]. cbn. by rewrite Hst.
Qed.

Lemma requeue_lost_ok cfg t i e :
  ichg_ok i -> envelopes i !! t = Some e -> state e = Dispatched ->
  (forall w, w ∈ workers i -> t ∉ in_flight_tasks w) ->
  ichg_ok (requeue_lost cfg t i) /\
  moves (same_or e_lost) (envelopes i) (envelopes (requeue_lost cfg t i)) /\
  (forall t', t' <> t ->
     envelopes (requeue_lost cfg t i) !! t' = envelopes i !! t').
Proof.
  intros Hi He Hst Hfree.
  assert (Hnp : t ∉ pending i).
  { eapply not_pending_dispatched; [done..|]. by rewrite Hst. }
  destruct Hi as [Hnd Hp Hf Hids].
  unfold requeue_lost. rewrite He.
  destruct (retries_exhausted cfg (S (retries e))); (split; [split; cbn|split; cbn]).
  - done.
  - intros x Hx. rewrite lookup_insert_ne; [by apply Hp|]. by intros ->.
  - intros w x Hw Hx. rewrite lookup_insert_ne; [by apply Hf|].
    intros ->. by apply (Hfree w).
  - done.
  - eapply moves_insert; [done|]. cbn. by rewrite Hst.
  - intros t' Hne. by rewrite lookup_insert_ne.
  - apply NoDup_cons. by split.
  - intros x [->|Hx]%elem_of_cons.
    + eexists. by rewrite lookup_insert_eq.
    + rewrite lookup_insert_ne; [by apply Hp|]. by intros ->.
  - intros w x Hw Hx. rewrite lookup_insert_ne; [by apply Hf|].
    intros ->. by apply (Hfree w).
  - done.
  - eapply moves_insert; [done|]. cbn. by rewrite Hst.
  - intros t' Hne. by rewrite lookup_insert_ne.
Qed.

Lemma requeue_fold_ok cfg ts i :
  ichg_ok i -> NoDup ts ->
  (forall t, t ∈ ts ->
     (exists e, envelopes i !! t = Some e /\ state e = Dispatched) /\
     forall w, w ∈ workers i -> t ∉ in_flight_tasks w) ->
  ichg_ok (foldr (requeue_lost cfg) i ts) /\
  moves (same_or e_lost) (envelopes i)
        (envelopes (foldr (requeue_lost cfg) i ts)) /\
  (forall t', t' ∉ ts ->
     envelopes (foldr (requeue_lost cfg) i ts) !! t' = envelopes i !! t').
Proof.
  intros Hi. induction ts as [|t ts IH]; intros Hnd Hts; cbn.
  { split; [done|]. split; [apply moves_refl|done]. }
  apply NoDup_cons in Hnd as [Hnt Hnd].
  destruct IH as (Hok & Hm & Hframe); [done| |].
  { intros x Hx. apply Hts. by apply list_elem_of_further. }
  destruct (Hts t (list_elem_of_here _ _)) as [(e & He & Hst) Hfree].
  destruct (requeue_lost_ok cfg t (foldr (requeue_lost cfg) i ts) e)
    as (Hok' & Hm' & Hframe'); [done| |done| |].
  { by rewrite Hframe. }
  { by rewrite requeue_fold_workers. }
  split; [done|]. split.
  - eapply moves_trans; [|exact Hm|exact Hm']. by intros [] [] [].
  - intros t' [Hne Hnin]%not_elem_of_cons.
    rewrite Hframe' by done. by apply Hframe.
Qed.

Lemma lost_NoDup (m : gmap N Envelope) (ws : list Worker) :
  NoDup (worker_id <$> ws) ->
  (forall w t, w ∈ ws -> t ∈ in_flight_tasks w ->
     exists e, m !! t = Some e /\ assigned_worker e = Some (worker_id w)) ->
  NoDup (ws ≫= (fun w => elements (in_flight_tasks w))).
Proof.
  induction ws as [|w ws IH]; cbn; intros Hnd Hown; [constructor|].
  apply NoDup_cons in Hnd as [Hw Hnd]. apply NoDup_app. split; [|split].
  - apply NoDup_elements.
  - intros t Ht%elem_of_elements (w' & Ht'%elem_of_elements & Hw')%list_elem_of_bind.
    destruct (Hown w t) as (e & He & Ha); [apply list_elem_of_here|done|].
    destruct (Hown w' t) as (e' & He' & Ha');
      [by apply list_elem_of_further|done|].
    apply Hw. assert (worker_id w = worker_id w') as -> by congruence.
    by apply list_elem_of_fmap_2.
  - apply IH; [done|]. intros w' t Hw' Ht.
    apply Hown; [by apply list_elem_of_further|done].
Qed.

(** The requeue half of a watchdog tick: the tasks of the dead workers,
    and only they, are requeued or failed. *)
Lemma watchdog_requeue_ok cfg now i :
  ichg_ok i ->
  let dead := filter (fun w => timed_out cfg now w = true) (workers i) in
  let alive := filter (fun w => timed_out cfg now w ≠ true) (workers i) in
  let lost := dead ≫= (fun w => elements (in_flight_tasks w)) in
  let i1 := foldr (requeue_lost cfg)
              (MkInterchange (envelopes i) (pending i) alive (batches i)
                             (next_batch_id i) (egress i)) lost in
  ichg_ok i1 /\
  moves (same_or e_lost) (envelopes i) (envelopes i1) /\
  (forall t, t ∉ lost -> envelopes i1 !! t = envelopes i !! t).
Proof.
  intros Hi dead alive lost.
  set (i0 := MkInterchange (envelopes i) (pending i) alive (batches i)
                           (next_batch_id i) (egress i)).
  assert (Hi0 : ichg_ok i0).
  { destruct Hi as [Hnd Hp Hf Hids]. split; cbn; [done..| |].
    - intros w t [_ Hw]%list_elem_of_filter. by apply Hf.
    - by apply NoDup_fmap_filter. }
  assert (Hlost : NoDup lost).
  { apply (lost_NoDup (envelopes i)).
    - apply NoDup_fmap_filter, (ok_worker_ids i Hi).
    - intros w t [_ Hw]%list_elem_of_filter Ht.
      destruct (ok_in_flight i Hi _ _ Hw Ht) as (e & He & _ & Ha).
      by exists e. }
  apply (requeue_fold_ok cfg lost i0 Hi0 Hlost).
  intros t (w & Ht%elem_of_elements & [Hto Hw]%list_elem_of_filter)%list_elem_of_bind.
  destruct (ok_in_flight i Hi _ _ Hw Ht) as (e & He & Hst & Ha).
  split; [by exists e|]. cbn.
  intros w' [Halive Hw']%list_elem_of_filter Ht'.
  destruct (ok_in_flight i Hi _ _ Hw' Ht') as (e' & He' & _ & Ha').
  assert (w = w') as <-; [|done].
  eapply NoDup_fmap_eq; [apply (ok_worker_ids i Hi)|done..|congruence].
Qed.

Lemma watchdog_tick_ok cfg now i :
  ichg_ok i ->
  ichg_ok (watchdog_tick cfg now i) /\
  moves (same_or (edge true)) (envelopes i)
        (envelopes (watchdog_tick cfg now i)).
Proof.
  intros Hi. unfold watchdog_tick.
  destruct (watchdog_requeue_ok cfg now i Hi) as (Hok & Hm & _).
  destruct (dispatch_ok cfg _ Hok) as [Hok' Hm']. split; [done|].
  eapply moves_trans; [|exact Hm|exact Hm']. by intros [] [] [].
Qed.

(** A watchdog tick sends a task back only if its worker timed out. *)
Lemma watchdog_tick_backward cfg now i t e e' :
  ichg_ok i -> envelopes i !! t = Some e -> state e = Dispatched ->
  envelopes (watchdog_tick cfg now i) !! t = Some e' -> state e' = Queued ->
  exists w, w ∈ workers i /\ timed_out cfg now w = true /\
            t ∈ in_flight_tasks w.
Proof.
  intros Hi He Hst He' Hst'. unfold watchdog_tick in He'.
  destruct (watchdog_requeue_ok cfg now i Hi) as (Hok & _ & Hframe).
  cbn zeta in Hok, Hframe.
  set (lost := filter (fun w => timed_out cfg now w = true) (workers i)
               ≫= (fun w => elements (in_flight_tasks w))) in *.
  destruct (decide (t ∈ lost)) as [Hin|Hnin].
  - apply list_elem_of_bind in Hin
      as (w & Ht%elem_of_elements & [Hto Hw]%list_elem_of_filter).
    by exists w.
  - exfalso. destruct (dispatch_ok cfg _ Hok) as [_ Hm].
    destruct (Hm _ _ He') as (e1 & He1 & HR).
    rewrite (Hframe _ Hnin), He in He1. inversion He1; subst e1.
    rewrite Hst, Hst' in HR. discriminate HR.
Qed.

Lemma requeue_task_frame t0 i t :
  t <> t0 -> envelopes (requeue_task t0 i) !! t = envelopes i !! t.
Proof.
  intros Hne. unfold requeue_task.
  destruct (envelopes i !! t0) as [e|]; [|done].
  destruct (state e); try done. cbn. by rewrite lookup_insert_ne.
Qed.

(** *** Registration, cancellation, bookkeeping *)

Lemma register_ok w cap now i : ichg_ok i -> ichg_ok (register w cap now i).
Proof.
  intros Hi. unfold register. destruct (decide _) as [|Hnew]; [done|].
  destruct Hi as [Hnd Hp Hf Hids]. split; cbn; [done..| |].
  - intros w' t [Hw'| ->%list_elem_of_singleton]%elem_of_app Ht;
      [by apply Hf|]. cbn in Ht. by apply not_elem_of_empty in Ht.
  - rewrite fmap_app. apply NoDup_app. split; [done|]. split.
    + intros x Hx ->%list_elem_of_singleton. done.
    + apply NoDup_singleton.
Qed.

Lemma heartbeat_ok w now i : ichg_ok i -> ichg_ok (heartbeat w now i).
Proof.
  intros [Hnd Hp Hf Hids]. split; cbn; [done..| |].
  - intros w' t (r & -> & Hr)%list_elem_of_fmap Ht.
    destruct (decide (worker_id r = w)); cbn in *; by apply Hf.
  - rewrite fmap_fmap_same; [done|]. intros r. by destruct (decide _).
Qed.

Lemma unregister_ok w i : ichg_ok i -> ichg_ok (unregister w i).
Proof.
  intros [Hnd Hp Hf Hids]. split; cbn; [done..| |].
  - intros w' t [_ Hw']%list_elem_of_filter. by apply Hf.
  - by apply NoDup_fmap_filter.
Qed.

Lemma cancel_queued_ok t i :
  ichg_ok i ->
  ichg_ok (cancel_queued t i) /\
  moves (same_or e_none) (envelopes i) (envelopes (cancel_queued t i)).
Proof.
  intros Hi. unfold cancel_queued.
  destruct (envelopes i !! t) as [e|] eqn:He;
    [|split; [done|apply moves_refl]].
  destruct (state e) eqn:Hst; try (split; [done|apply moves_refl]).
  split; [|apply moves_delete].
  destruct Hi as [Hnd Hp Hf Hids]. split; cbn; [|intros x|intros w x Hw Hx|done].
  - by apply NoDup_filter.
  - intros [Hne Hx]%list_elem_of_filter.
    rewrite lookup_delete_ne by done. by apply Hp.
  - destruct (Hf _ _ Hw Hx) as (e' & He' & Hst' & Ha).
    rewrite lookup_delete_ne; [by exists e'|]. intros <-. congruence.
Qed.

Lemma forget_ok t i :
  ichg_ok i ->
  ichg_ok (forget t i) /\
  moves (same_or e_none) (envelopes i) (envelopes (forget t i)).
Proof.
  intros Hi. unfold forget.
  destruct (envelopes i !! t) as [e|] eqn:He;
    [|split; [done|apply moves_refl]].
  assert (Hgen : is_terminal (state e) = true ->
    ichg_ok (MkInterchange (delete t (envelopes i)) (pending i) (workers i)
               (batches i) (next_batch_id i) (egress i))).
  { intros Hterm. destruct Hi as [Hnd Hp Hf Hids].
    split; cbn; [done|intros x Hx|intros w x Hw Hx|done].
    - destruct (Hp _ Hx) as (e' & He' & Hq).
      rewrite lookup_delete_ne; [by exists e'|].
      intros <-. rewrite He in He'. inversion He'; subst.
      by rewrite Hq in Hterm.
    - destruct (Hf _ _ Hw Hx) as (e' & He' & Hst' & Ha).
      rewrite lookup_delete_ne; [by exists e'|].
      intros <-. rewrite He in He'. inversion He'; subst.
      by rewrite Hst' in Hterm. }
  destruct (state e) eqn:Hst; try (split; [done|apply moves_refl]);
    (split; [by apply Hgen|apply moves_delete]).
Qed.

Lemma receive_task_ok e i :
  ichg_ok i -> envelopes i !! task_id e = None -> state e = Queued ->
  ichg_ok (receive_task e i).
Proof.
  intros [Hnd Hp Hf Hids] Hnew Hq. split; cbn; [| | |done].
  - apply NoDup_app. split; [done|]. split; [|apply NoDup_singleton].
    intros x Hx ->%list_elem_of_singleton.
    destruct (Hp _ Hx) as (e' & He' & _). congruence.
  - intros x [Hx| ->%list_elem_of_singleton]%elem_of_app.
    + destruct (Hp _ Hx) as (e' & He' & Hq').
      rewrite lookup_insert_ne; [by exists e'|]. intros <-. congruence.
    + exists e. by rewrite lookup_insert_eq.
  - intros w x Hw Hx. destruct (Hf _ _ Hw Hx) as (e' & He' & Hst' & Ha).
    rewrite lookup_insert_ne; [by exists e'|]. intros <-. congruence.
Qed.

(** ** The system invariant *)

Lemma sys_ok_init : sys_ok init.
Proof.
  split; cbn.
  - apply client_ok_init.
  - split; cbn; [constructor| | |constructor].
    + by intros t ?%elem_of_nil.
    + by intros w t ?%elem_of_nil.
  - constructor.
  - by intros e ?%elem_of_nil.
  - intros t e H. by rewrite lookup_empty in H.
Qed.

(** An event that creates no id and adds nothing to the outbound
    channel keeps the invariant. *)
Lemma sys_ok_update R s c' i' :
  sys_ok s -> client_ok c' -> ichg_ok i' ->
  moves R (envelopes (ichg s)) (envelopes i') ->
  next_task_id c' = next_task_id (client s) ->
  NoDup (task_id <$> outbound c') ->
  (forall e, e ∈ outbound c' -> e ∈ outbound (client s)) ->
  sys_ok (MkSys c' i').
Proof.
  intros [Hc Hi Hnd Hout Hb] Hc' Hi' Hm Hnext Hnd' Hsub. split; cbn; [done..| |].
  - intros e He. destruct (Hout _ (Hsub _ He)) as (Hq & Hlt & Hnone).
    rewrite Hnext. split; [done|]. split; [done|].
    by eapply moves_None.
  - intros t e' He'. destruct (Hm _ _ He') as (e & He & _).
    rewrite Hnext. by eapply Hb.
Qed.

Lemma submit_sys_ok cfg p s :
  sys_ok s -> sys_ok (with_client s (submit cfg p (client s)).1).
Proof.
  intros Hs. pose proof (submit_client_ok cfg p _ (ok_client s Hs)) as Hc'.
  destruct Hs as [Hc Hi Hnd Hout Hb]. revert Hc'. unfold submit.
  destruct (Nat.leb _ _); [by split|]. cbn. intros Hc'. split; cbn; [done..| | |].
  - rewrite fmap_app. apply NoDup_app. split; [done|].
    split; [|apply NoDup_singleton]. cbn.
    intros x (e & -> & He)%list_elem_of_fmap Heq%list_elem_of_singleton.
    destruct (Hout _ He) as (_ & Hlt & _). lia.
  - intros e [He| ->%list_elem_of_singleton]%elem_of_app.
    + destruct (Hout _ He) as (Hq & Hlt & Hnone). split; [done|].
      split; [lia|done].
    + cbn. split; [done|]. split; [lia|].
      destruct (envelopes (ichg s) !! next_task_id (client s)) as [e|] eqn:He;
        [|done].
      specialize (Hb _ _ He). lia.
  - intros t e He. specialize (Hb _ _ He). lia.
Qed.

Lemma ingest_sys_ok s e rest :
  sys_ok s -> outbound (client s) = e :: rest ->
  sys_ok (MkSys (MkClient (next_task_id (client s)) (table (client s))
                          (futures (client s)) rest (dropped (client s)))
                (receive_task e (ichg s))).
Proof.
  intros [Hc Hi Hnd Hout Hb] Hoe. rewrite Hoe in Hnd, Hout.
  cbn in Hnd. apply NoDup_cons in Hnd as [Hhead Hnd].
  destruct (Hout e (list_elem_of_here _ _)) as (Hq & Hlt & Hnone).
  split; cbn.
  - destruct Hc. by split.
  - by apply receive_task_ok.
  - done.
  - intros e' He'.
    destruct (Hout e' (list_elem_of_further _ _ _ He')) as (Hq' & Hlt' & Hn').
    split; [done|]. split; [done|]. rewrite lookup_insert_ne; [done|].
    intros Heq. apply Hhead. rewrite Heq. by apply list_elem_of_fmap_2.
  - intros t e' He'. destruct (decide (task_id e = t)) as [<-|Hne]; [done|].
    rewrite lookup_insert_ne in He' by done. by eapply Hb.
Qed.

Lemma exec_sys_ok cfg l s : sys_ok s -> sys_ok (exec cfg l s).
Proof.
  intros Hs. pose proof Hs as [Hc Hi Hnd Hout Hb].
  destruct l; cbn.
  - by apply submit_sys_ok.
  - destruct (outbound (client s)) eqn:Ho; [done|]. by apply ingest_sys_ok.
  - destruct (dispatch_ok cfg _ Hi) as [Hok Hm].
    by eapply sys_ok_update.
  - destruct (handle_result_ok cfg m _ Hi) as [Hok Hm].
    by eapply sys_ok_update.
  - eapply (sys_ok_update (same_or e_none));
      [done|done|by apply heartbeat_ok|apply moves_refl|done|done|done].
  - destruct (watchdog_tick_ok cfg now _ Hi) as [Hok Hm].
    by eapply sys_ok_update.
  - eapply (sys_ok_update (same_or e_none));
      [done|done|by apply register_ok| |done|done|done].
    unfold register. destruct (decide _); apply moves_refl.
  - eapply (sys_ok_update (same_or e_none));
      [done|done|by apply unregister_ok|apply moves_refl|done|done|done].
  - destruct (requeue_task_ok t _ Hi) as [Hok Hm].
    by eapply sys_ok_update.
  - destruct (egress (ichg s)) eqn:He; [done|].
    eapply (sys_ok_update (same_or e_none)); [done| | | | | |].
    + by apply route_client_ok.
    + destruct Hi. by split.
    + apply moves_refl.
    + apply route_keeps.
    + by rewrite (proj2 (route_keeps m (client s))).
    + intros e. by rewrite (proj2 (route_keeps m (client s))).
  - pose proof (cancel_future_client_ok t _ Hc) as Hc'.
    destruct (cancel_queued_ok t _ Hi) as [Hok Hm].
    revert Hc'. unfold cancel_future.
    destruct (table (client s) !! t) as [h|]; [|done]. cbn. intros Hc'.
    eapply sys_ok_update; [done..| |].
    + cbn. by apply NoDup_fmap_filter.
    + cbn. by intros e [_ He]%list_elem_of_filter.
  - eapply (sys_ok_update (same_or e_none));
      [done|by apply teardown_client_ok|done|apply moves_refl|done|done|done].
  - destruct (forget_ok t _ Hi) as [Hok Hm].
    by eapply sys_ok_update.
Qed.

Lemma reachable_sys_ok cfg s : reachable cfg s -> sys_ok s.
Proof.
  induction 1 as [|s l _ IH]; [apply sys_ok_init|by apply exec_sys_ok].
Qed.

(** ** Steps of the system *)

Lemma keeps_refl m : keeps m m.
Proof. by intros t. Qed.

Lemma keeps_trans m1 m2 m3 : keeps m1 m2 -> keeps m2 m3 -> keeps m1 m3.
Proof. intros H12 H23 t Ht. by apply H23, H12. Qed.

Lemma keeps_insert m t e : keeps m (<[t := e]> m).
Proof.
  intros t' Ht'. destruct (decide (t = t')) as [<-|Hne].
  - by rewrite lookup_insert_eq.
  - by rewrite lookup_insert_ne.
Qed.

Lemma dispatch_loop_keeps fuel cfg i :
  keeps (envelopes i) (envelopes (dispatch_loop fuel cfg i)).
Proof.
  revert i. induction fuel as [|fuel IH]; intros i; cbn; [apply keeps_refl|].
  destruct (dispatch_step cfg i) as [i'|] eqn:Hs; [|apply keeps_refl].
  eapply keeps_trans; [|apply IH].
  apply dispatch_step_Some in Hs as (j & w & n & _ & _ & _ & _ & _ & _ & ->).
  cbn. intros t [e He]. rewrite mark_dispatched_lookup, He.
  by destruct (decide _).
Qed.

Lemma handle_result_keeps cfg m i :
  keeps (envelopes i) (envelopes (handle_result cfg m i)).
Proof.
  unfold handle_result.
  destruct (envelopes i !! msg_task_id m) as [e|]; [|apply keeps_refl].
  destruct (terminal_state (body m)); [|apply keeps_refl].
  destruct (state e); try apply keeps_refl.
  eapply keeps_trans; [|apply dispatch_loop_keeps]. apply keeps_insert.
Qed.

Lemma requeue_fold_keeps cfg ts i :
  keeps (envelopes i) (envelopes (foldr (requeue_lost cfg) i ts)).
Proof.
  induction ts as [|t ts IH]; cbn; [apply keeps_refl|].
  eapply keeps_trans; [exact IH|]. unfold requeue_lost.
  destruct (envelopes _ !! t) as [e|]; [|apply keeps_refl].
  destruct (retries_exhausted _ _); apply keeps_insert.
Qed.

Lemma watchdog_tick_keeps cfg now i :
  keeps (envelopes i) (envelopes (watchdog_tick cfg now i)).
Proof.
  unfold watchdog_tick. eapply keeps_trans; [|apply dispatch_loop_keeps].
  apply (requeue_fold_keeps cfg _
           (MkInterchange (envelopes i) (pending i) _ (batches i)
                          (next_batch_id i) (egress i))).
Qed.

Lemma requeue_task_keeps t i :
  keeps (envelopes i) (envelopes (requeue_task t i)).
Proof.
  unfold requeue_task.
  destruct (envelopes i !! t) as [e|]; [|apply keeps_refl].
  destruct (state e); try apply keeps_refl. apply keeps_insert.
Qed.

Lemma edge_weaken (E : TaskState -> TaskState -> bool) rq :
  (forall a b, E a b = true -> edge rq a b = true) ->
  forall a b, same_or E a b = true -> same_or (edge rq) a b = true.
Proof.
  intros HE a b. unfold same_or. intros [H|H]%orb_true_iff.
  - by rewrite H.
  - rewrite (HE _ _ H). apply orb_true_r.
Qed.

(** What one event does to the envelope of one task: an envelope that
    is there afterwards was there before, its state unchanged or moved
    along an edge, unless the event is the receipt of that task. *)
Lemma exec_moves cfg l s t e' :
  sys_ok s -> envelopes (ichg (exec cfg l s)) !! t = Some e' ->
  (exists e, envelopes (ichg s) !! t = Some e /\
             same_or (edge (requeues l)) (state e) (state e') = true) \/
  (envelopes (ichg s) !! t = None /\ l = LIngest /\ state e' = Queued /\
   t ∈ task_id <$> outbound (client s)).
Proof.
  intros Hs He'. pose proof (ok_ichg s Hs) as Hi.
  assert (Hfrom : forall E,
    (forall a b, E a b = true -> edge (requeues l) a b = true) ->
    moves (same_or E) (envelopes (ichg s)) (envelopes (ichg (exec cfg l s))) ->
    exists e, envelopes (ichg s) !! t = Some e /\
              same_or (edge (requeues l)) (state e) (state e') = true).
  { intros E HE Hm. destruct (Hm _ _ He') as (e & He & HR).
    exists e. split; [done|]. by eapply edge_weaken. }
  destruct l; cbn in *;
    try (left; apply (Hfrom e_none); [done|apply moves_refl]).
  - destruct (outbound (client s)) as [|e rest] eqn:Ho;
      [left; apply (Hfrom e_none); [done|apply moves_refl]|].
    cbn in He'. destruct (decide (task_id e = t)) as [<-|Hne].
    + rewrite lookup_insert_eq in He'. inversion He'; subst.
      destruct (ok_out s Hs e') as (Hq & _ & Hnone);
        [rewrite Ho; apply list_elem_of_here|].
      right. repeat split; try done. apply list_elem_of_here.
    + rewrite lookup_insert_ne in He' by done. left. exists e'.
      split; [done|]. unfold same_or. by rewrite bool_decide_eq_true_2.
  - left. apply (Hfrom e_dispatch); [by intros [] []|].
    by apply dispatch_ok.
  - left. apply (Hfrom (edge false)); [by intros [] []|].
    by apply handle_result_ok.
  - left. apply (Hfrom (edge true)); [done|]. by apply watchdog_tick_ok.
  - left. apply (Hfrom e_none); [done|].
    unfold register. destruct (decide _); apply moves_refl.
  - left. apply (Hfrom (edge true)); [done|]. by apply requeue_task_ok.
  - left. apply (Hfrom e_none); [done|].
    destruct (egress (ichg s)); apply moves_refl.
  - left. apply (Hfrom e_none); [done|].
    destruct (cancel_future t0 (client s)) as [c []]; [|apply moves_refl].
    by apply cancel_queued_ok.
  - left. apply (Hfrom e_none); [done|]. by apply forget_ok.
Qed.

(** An envelope leaves the books only by cancellation while queued, or
    when it is forgotten in a terminal state. *)
Lemma exec_removes cfg l s t e :
  envelopes (ichg s) !! t = Some e ->
  envelopes (ichg (exec cfg l s)) !! t = None ->
  l = LCancel t /\ state e = Queued \/
  l = LForget t /\ is_terminal (state e) = true.
Proof.
  intros He Hn.
  assert (Hkeeps : keeps (envelopes (ichg s)) (envelopes (ichg (exec cfg l s)))
                   -> False).
  { intros Hk. destruct (Hk t) as [e' He']; [by exists e|congruence]. }
  destruct l; cbn in *; try (exfalso; apply Hkeeps, keeps_refl).
  - exfalso. apply Hkeeps. destruct (outbound (client s)); cbn;
      [apply keeps_refl|apply keeps_insert].
  - exfalso. apply Hkeeps, dispatch_loop_keeps.
  - exfalso. apply Hkeeps, handle_result_keeps.
  - exfalso. apply Hkeeps, watchdog_tick_keeps.
  - exfalso. apply Hkeeps. unfold register.
    destruct (decide _); apply keeps_refl.
  - exfalso. apply Hkeeps, requeue_task_keeps.
  - exfalso. apply Hkeeps. destruct (egress (ichg s)); apply keeps_refl.
  - destruct (cancel_future t0 (client s)) as [c []]; cbn in Hn; [|congruence].
    unfold cancel_queued in Hn.
    destruct (envelopes (ichg s) !! t0) as [e0|] eqn:He0; [|congruence].
    destruct (state e0) eqn:Hst; try congruence. cbn in Hn.
    destruct (decide (t0 = t)) as [->|Hne].
    + left. split; [done|]. congruence.
    + rewrite lookup_delete_ne in Hn by done. congruence.
  - unfold forget in Hn.
    destruct (envelopes (ichg s) !! t0) as [e0|] eqn:He0; [|congruence].
    destruct (decide (t0 = t)) as [->|Hne].
    + right. split; [done|]. assert (e0 = e) as -> by congruence.
      destruct (state e); try congruence; done.
    + destruct (state e0); try congruence; cbn in Hn;
        rewrite lookup_delete_ne in Hn by done; congruence.
Qed.

Lemma exec_next_task_id cfg l s :
  (next_task_id (client s) ≤ next_task_id (client (exec cfg l s)))%N.
Proof.
  destruct l; cbn; try lia.
  - unfold submit. destruct (Nat.leb _ _); cbn; lia.
  - destruct (outbound (client s)) eqn:Ho; cbn; lia.
  - destruct (egress (ichg s)); cbn; [lia|].
    rewrite (proj1 (route_keeps _ _)). lia.
  - unfold cancel_future. destruct (table (client s) !! t); cbn; lia.
Qed.

Lemma exec_outbound cfg l s x :
  x ∈ task_id <$> outbound (client (exec cfg l s)) ->
  x ∈ task_id <$> outbound (client s) \/ x = next_task_id (client s).
Proof.
  destruct l; cbn; try by left.
  - unfold submit. destruct (Nat.leb _ _); cbn; [by left|].
    rewrite fmap_app. intros [H|H%list_elem_of_singleton]%elem_of_app;
      [by left|by right].
  - destruct (outbound (client s)) eqn:Ho; cbn; rewrite ?Ho; [by left|].
    intros H. left. by apply list_elem_of_further.
  - destruct (egress (ichg s)); cbn; [by left|].
    rewrite (proj2 (route_keeps _ _)). by left.
  - unfold cancel_future. destruct (table (client s) !! t); cbn; [|by left].
    intros (e & -> & [_ He]%list_elem_of_filter)%list_elem_of_fmap.
    left. by apply list_elem_of_fmap_2.
Qed.

(** Once terminal, always terminal: whatever happens next, the envelope
    keeps its state for as long as it is in the books, and no new
    envelope is ever made for its id. *)
Lemma terminal_forever cfg ls s t a :
  sys_ok s -> is_terminal a = true ->
  (t < next_task_id (client s))%N ->
  t ∉ task_id <$> outbound (client s) ->
  (forall e, envelopes (ichg s) !! t = Some e -> state e = a) ->
  forall e', envelopes (ichg (run cfg ls s)) !! t = Some e' -> state e' = a.
Proof.
  revert s. induction ls as [|l ls IH]; intros s Hs Ha Hlt Hout Hst; cbn;
    [done|].
  apply IH; [by apply exec_sys_ok|done| | |].
  - pose proof (exec_next_task_id cfg l s). lia.
  - intros [H| ->]%exec_outbound; [done|lia].
  - intros e He. destruct (exec_moves _ _ _ _ _ Hs He)
      as [(e0 & He0 & HR)|(_ & _ & _ & Hin)]; [|done].
    rewrite (Hst _ He0) in HR. unfold same_or in HR.
    apply orb_true_iff in HR as [HR|HR].
    + by apply bool_decide_eq_true_1 in HR.
    + by destruct a.
Qed.

Lemma reachable_run cfg ls s : reachable cfg s -> reachable cfg (run cfg ls s).
Proof.
  revert s. induction ls as [|l ls IH]; intros s Hs; cbn; [done|].
  apply IH. by constructor.
Qed.

(** ** Futures *)

(** A resolved Future is final: no event changes it. *)
Lemma resolved_is_final cfg l s h f :
  sys_ok s -> futures (client s) !! h = Some f -> resolved f = true ->
  futures (client (exec cfg l s)) !! h = Some f.
Proof.
  intros Hs Hf Hres. pose proof (ok_client s Hs) as [_ _ Ht _].
  assert (Hentry : forall t h0 r, table (client s) !! t = Some h0 ->
            alter (resolve r) h0 (futures (client s)) !! h = Some f).
  { intros t h0 r Hth. rewrite list_lookup_alter_ne; [done|]. intros ->.
    destruct (Ht _ _ Hth) as (_ & f' & Hf' & Hr'). congruence. }
  destruct l; cbn; try done.
  - unfold submit. destruct (Nat.leb _ _); cbn; [done|].
    rewrite lookup_app_l; [done|]. by eapply lookup_lt_Some.
  - by destruct (outbound (client s)).
  - destruct (egress (ichg s)) as [|m rest]; [done|]. cbn. unfold route.
    destruct (table (client s) !! msg_task_id m) as [h0|] eqn:Hth; [|done].
    destruct (resolution_of (body m)); [|done]. cbn. by eapply Hentry.
  - unfold cancel_future.
    destruct (table (client s) !! t) as [h0|] eqn:Hth; [|done].
    cbn. by eapply Hentry.
  - rewrite list_lookup_fmap, Hf. cbn. by rewrite Hres.
Qed.

(** An unresolved Future is not lost: its task is in the mapping
    table. *)
Lemma unresolved_is_tracked cfg s h f :
  reachable cfg s -> futures (client s) !! h = Some f -> resolved f = false ->
  table (client s) !! fut_task_id f = Some h.
Proof.
  intros Hr Hf Hres.
  pose proof (ok_client s (reachable_sys_ok _ _ Hr)) as [_ Hi _ Hu].
  rewrite (Hi _ _ Hf). by eapply Hu.
Qed.

(** Loss of the connection leaves no Future pending. *)
Lemma teardown_resolves_all c f : f ∈ futures (teardown c) -> resolved f = true.
Proof.
  cbn. intros (f0 & -> & _)%list_elem_of_fmap.
  by destruct (resolved f0) eqn:Hr.
Qed.

(** ** Backpressure *)

Lemma submit_full cfg p c :
  queue_depth cfg ≤ length (outbound c) ->
  submit cfg p c = (c, Rejected QueueFull).
Proof.
  intros Hfull. unfold submit.
  by rewrite (proj2 (Nat.leb_le _ _) Hfull).
Qed.

Lemma submit_accepted cfg p c :
  length (outbound c) < queue_depth cfg ->
  let t := next_task_id c in
  let c' := (submit cfg p c).1 in
  (submit cfg p c).2 = Accepted (length (futures c)) /\
  futures c' !! length (futures c) = Some (MkFuture t None false) /\
  table c' !! t = Some (length (futures c)) /\
  outbound c' = (outbound c ++ [MkEnvelope t p Queued None 0])%list.
Proof.
  intros Hroom. unfold submit.
  rewrite (proj2 (Nat.leb_gt _ _) Hroom). cbn.
  split; [done|]. split; [|split; [apply lookup_insert_eq|done]].
  rewrite lookup_app_r by lia. by rewrite Nat.sub_diag.
Qed.

(** The outbound channel never holds more than the configured depth. *)
Lemma outbound_bounded cfg s :
  reachable cfg s -> length (outbound (client s)) ≤ queue_depth cfg.
Proof.
  induction 1 as [|s l _ IH]; cbn; [lia|].
  destruct l; cbn; try done.
  - unfold submit. destruct (Nat.leb _ _) eqn:Hle; cbn; [done|].
    apply Nat.leb_gt in Hle. rewrite length_app. cbn. lia.
  - destruct (outbound (client s)) eqn:Ho; cbn in *; rewrite ?Ho; cbn; lia.
  - destruct (egress (ichg s)); cbn; [done|].
    by rewrite (proj2 (route_keeps _ _)).
  - unfold cancel_future. destruct (table (client s) !! t); cbn; [|done].
    etrans; [apply length_filter|done].
Qed.

(** ** A concrete run *)

Lemma s0_reachable : reachable cfg0 s0.
Proof. apply reachable_run. constructor. Qed.

Example s0_states :
  state_of s0 0%N = Some Completed /\
  state_of s0 1%N = Some Dispatched /\
  state_of s0 2%N = Some Dispatched /\
  (fun w => (worker_id w, elements (in_flight_tasks w))) <$> workers (ichg s0)
  = [(1%N, [2%N]); (2%N, [1%N])].
Proof. vm_compute. repeat split. Qed.

(** The watchdog declares worker 2 dead; its task goes back to the queue
    and is dispatched again, to worker 1. *)
Example s0_watchdog :
  let s := run cfg0 [LHeartbeat 1 10; LWatchdog 10] s0 in
  state_of s 1%N = Some Dispatched /\
  (fun w => (worker_id w, elements (in_flight_tasks w))) <$> workers (ichg s)
  = [(1%N, [2%N; 1%N])].
Proof. vm_compute. repeat split. Qed.

(** ** C5: in-flight tasks never exceed capacity *)

(** C5: in every reachable state, every registered worker holds at most
    [capacity] tasks in [in_flight_tasks]; and whatever event comes next
    (dispatch, a result, a watchdog tick with its requeues, a
    registration or a removal, or any other), the bound holds again
    afterwards. *)
Theorem in_flight_within_capacity cfg s :
  reachable cfg s ->
  (forall w, w ∈ workers (ichg s) ->
             size (in_flight_tasks w) ≤ capacity w) /\
  (forall l w, w ∈ workers (ichg (exec cfg l s)) ->
               size (in_flight_tasks w) ≤ capacity w).
Proof.
  intros Hr. assert (Hc : cap_ok (ichg s)).
  { induction Hr as [|s l _ IH]; [constructor|by apply exec_cap_ok]. }
  split.
  - by apply Forall_forall.
  - intros l. apply Forall_forall. by apply exec_cap_ok.
Qed.

Lemma in_flight_within_capacity_witness :
  reachable cfg0 s0 /\
  forall w, w ∈ workers (ichg (exec cfg0 LDispatch s0)) ->
            size (in_flight_tasks w) ≤ capacity w.
Proof.
  split; [exact s0_reachable|].
  exact (proj2 (in_flight_within_capacity cfg0 s0 s0_reachable) LDispatch).
Defined.

(** ** C6: duplicate and stale results *)

(** C6: in every reachable state, a result message whose task id is not
    in the mapping table leaves every Future and the table as they
    are (the item is only logged); this is the case in particular when
    the task's Future is already resolved; and delivering any message a
    second time changes no Future. *)
Theorem duplicate_delivery_is_noop cfg s (m : Message) :
  reachable cfg s ->
  let c := client s in
  (table c !! msg_task_id m = None ->
   futures (route m c) = futures c /\ table (route m c) = table c /\
   dropped (route m c) = (dropped c ++ [m])%list) /\
  (forall f, f ∈ futures c -> resolved f = true ->
             fut_task_id f = msg_task_id m ->
             futures (route m c) = futures c) /\
  futures (route m (route m c)) = futures (route m c) /\
  table (route m (route m c)) = table (route m c).
Proof.
  intros Hr c. pose proof (ok_client s (reachable_sys_ok _ _ Hr)) as Hc.
  split; [|split].
  - intros Hn. by rewrite (route_unknown m c Hn).
  - intros f Hf Hres Hid.
    pose proof (resolved_not_in_table c f Hc Hf Hres) as Hn.
    rewrite Hid in Hn. by rewrite (route_unknown m c Hn).
  - apply route_twice.
Qed.

Lemma duplicate_delivery_is_noop_witness :
  reachable cfg0 s0 /\
  futures (route result0 (client s0)) = futures (client s0).
Proof.
  split; [exact s0_reachable|].
  refine (proj1 (proj2 (duplicate_delivery_is_noop cfg0 s0 result0 s0_reachable))
            (MkFuture 0 (Some (Value [])) true) _ eq_refl eq_refl).
  vm_compute. apply list_elem_of_here.
Defined.

(** ** C8: the envelope state machine *)

(** C8: take any reachable state, any event and any task.  If the task
    has an envelope before and after the event, its state is unchanged
    or has moved along one of [Queued -> Dispatched],
    [Dispatched -> Completed], [Dispatched -> Failed] or
    [Dispatched -> Queued]; the last one is taken only by a watchdog
    tick, for a task in flight at a worker whose heartbeat timed out, or
    by the explicit requeue of that task.  An envelope appears only on
    receipt of the task, in state [Queued]; it disappears only by
    cancellation while [Queued] or when a terminal envelope is
    forgotten.  And once an envelope is [Completed] or [Failed], no
    later sequence of events changes its state or makes a new envelope
    for its id. *)
Theorem envelope_state_machine cfg s l t :
  reachable cfg s ->
  match state_of s t, state_of (exec cfg l s) t with
  | Some a, Some b => a = b \/ edge (requeues l) a b = true
  | None, Some b => l = LIngest /\ b = Queued
  | Some a, None =>
      l = LCancel t /\ a = Queued \/ l = LForget t /\ is_terminal a = true
  | None, None => True
  end /\
  (state_of s t = Some Dispatched ->
   state_of (exec cfg l s) t = Some Queued ->
   l = LRequeue t \/
   exists now w, l = LWatchdog now /\ w ∈ workers (ichg s) /\
                 timed_out cfg now w = true /\ t ∈ in_flight_tasks w) /\
  forall a ls, state_of s t = Some a -> is_terminal a = true ->
    match state_of (run cfg ls s) t with
    | Some b => b = a
    | None => True
    end.
Proof.
  intros Hr. pose proof (reachable_sys_ok _ _ Hr) as Hs.
  assert (Hstep : forall e', envelopes (ichg (exec cfg l s)) !! t = Some e' ->
    match state_of s t with
    | Some a => a = state e' \/ edge (requeues l) a (state e') = true
    | None => l = LIngest /\ state e' = Queued
    end).
  { intros e' He'. unfold state_of.
    destruct (exec_moves _ _ _ _ _ Hs He')
      as [(e & -> & HR)|(-> & -> & Hq & _)]; cbn; [|done].
    unfold same_or in HR. apply orb_true_iff in HR as [HR|HR].
    - left. by apply bool_decide_eq_true_1 in HR.
    - by right. }
  unfold state_of in *. split; [|split].
  - destruct (envelopes (ichg (exec cfg l s)) !! t) as [e'|] eqn:He'; cbn.
    + specialize (Hstep _ eq_refl).
      by destruct (envelopes (ichg s) !! t) as [e|].
    + destruct (envelopes (ichg s) !! t) as [e|] eqn:He; cbn; [|done].
      by eapply exec_removes.
  - intros Hd Hq.
    destruct (envelopes (ichg (exec cfg l s)) !! t) as [e'|] eqn:He';
      [|done].
    cbn in Hq. inversion Hq as [Hq']. specialize (Hstep _ eq_refl).
    destruct (envelopes (ichg s) !! t) as [e|] eqn:He; [|done].
    cbn in Hd, Hstep. inversion Hd as [Hd'].
    rewrite Hd', Hq' in Hstep. destruct Hstep as [Hstep|Hstep]; [done|].
    destruct l; try discriminate Hstep; cbn in He'.
    + right. destruct (watchdog_tick_backward cfg now (ichg s) t e e')
        as (w & Hw & Hto & Ht); [apply (ok_ichg s Hs)|done..|].
      by exists now, w.
    + left. destruct (decide (t = t0)) as [->|Hne]; [done|].
      rewrite requeue_task_frame in He' by done. congruence.
  - intros a ls Ha Hterm.
    destruct (envelopes (ichg s) !! t) as [e|] eqn:He; [|done].
    cbn in Ha. inversion Ha; subst a.
    destruct (envelopes (ichg (run cfg ls s)) !! t) as [e'|] eqn:He'; cbn;
      [|done].
    eapply (terminal_forever cfg ls s t); [done|done| | | |exact He'].
    + by eapply (ok_booked s Hs).
    + intros (e0 & Heq & Hin)%list_elem_of_fmap.
      destruct (ok_out s Hs _ Hin) as (_ & _ & Hnone). congruence.
    + intros e1 He1. congruence.
Qed.

Lemma envelope_state_machine_witness :
  reachable cfg0 s0 /\
  (state_of s0 0%N = Some Completed /\
   state_of (run cfg0 [LReply result0; LWatchdog 100; LRequeue 0; LDispatch] s0)
            0%N = Some Completed).
Proof.
  split; [exact s0_reachable|]. split; [reflexivity|].
  pose proof (proj2 (proj2 (envelope_state_machine cfg0 s0 LDispatch 0%N
                                  s0_reachable))
                Completed [LReply result0; LWatchdog 100; LRequeue 0; LDispatch]
                eq_refl eq_refl) as H.
  destruct (state_of _ 0%N) as [b|] eqn:Hb; [by rewrite H|].
  vm_compute in Hb. discriminate Hb.
Defined.

End CoreProps.
